(** * gtfs-tripify demo driver ([build.py]): a shallow embedding

    The driver script groups GTFS-RT message files by feed, cuts each feed's
    file list into chunks, hands each chunk to [gtfs_tripify], merges the
    partial logbooks, cuts cancellations and exports a CSV.  This file embeds
    the script's own computations and states its properties.

    The archive extraction of lines 18-21 and the directory listing are
    inputs: the script is a function of the listed file names, of the
    content of each file, and of the library it imports.  The stitching
    engine of that library is not part of the sources; module [Core] models
    it from the specification. *)

From Stdlib Require Import ZArith Lia List Ascii String Sorted Permutation.
From stdpp Require Import base gmap strings list sorting.

Open Scope nat_scope.

(** ** Python values the script relies on *)

Module Py.

(** Exceptions the script can raise. *)
Inductive exn : Type :=
  | ValueError
  | IndexError
  | KeyError (key : string)
  | NameError (name : string)
  | OrderingError.

Definition result (A : Type) : Type := exn + A.

Definition raise {A} (e : exn) : result A := inl e.
Definition ret {A} (a : A) : result A := inr a.

Definition bind {A B} (r : result A) (k : A -> result B) : result B :=
  match r with
  | inl e => inl e
  | inr a => k a
  end.

Notation "'do' x <- e ; k" := (bind e (fun x => k))
  (at level 10, x pattern, e at level 100, k at level 200).

(** [len(range(start, stop, step))] for a positive step. *)
Definition range_len (start stop step : nat) : nat :=
  (stop - start + step - 1) / step.

(** [list(range(start, stop, step))] on non-negative arguments; a zero step
    is a [ValueError]. *)
Definition range (start stop step : nat) : result (list nat) :=
  if step =? 0 then raise ValueError
  else ret (map (fun i => start + i * step) (seq 0 (range_len start stop step))).

(** [l[start:stop]] for non-negative indices: both ends are clamped to the
    length and an empty slice results when [stop <= start]. *)
Definition slice {A} (l : list A) (start stop : nat) : list A :=
  drop start (take stop l).

(** [l[-1] = f(l[-1])]: reading the last item of an empty list is an
    [IndexError]. *)
Definition update_last {A} (l : list A) (f : A -> A) : result (list A) :=
  match last l with
  | None => raise IndexError
  | Some x => ret (<[pred (length l) := f x]> l)
  end.

(** Strings: [s[start:stop]] with Python's treatment of negative and
    out-of-range indices, and [s.find(c)], which is [-1] when [c] is absent. *)
Fixpoint str_take (n : nat) (s : string) : string :=
  match n, s with
  | S n', String c s' => String c (str_take n' s')
  | _, _ => EmptyString
  end.

Fixpoint str_drop (n : nat) (s : string) : string :=
  match n, s with
  | S n', String _ s' => str_drop n' s'
  | _, _ => s
  end.

Definition clamp_index (len : nat) (i : Z) : nat :=
  if (i <? 0)%Z then Z.to_nat (Z.max 0 (Z.of_nat len + i))
  else Nat.min (Z.to_nat i) len.

Definition str_slice (s : string) (start stop : option Z) : string :=
  let len := String.length s in
  let lo := match start with Some i => clamp_index len i | None => 0 end in
  let hi := match stop with Some i => clamp_index len i | None => len end in
  str_drop lo (str_take hi s).

Fixpoint find (s : string) (c : ascii) : Z :=
  match s with
  | EmptyString => (-1)%Z
  | String a s' =>
      if Ascii.eqb a c then 0%Z
      else let r := find s' c in if (r <? 0)%Z then (-1)%Z else (r + 1)%Z
  end.

(** [sorted(l)] on a list of strings: ascending lexicographic order. *)
Definition sorted (l : list string) : list string := merge_sort String.le l.

(** [d[k]] on a dict. *)
Definition getitem {V} (d : gmap string V) (k : string) : result V :=
  match d !! k with
  | Some v => ret v
  | None => raise (KeyError k)
  end.

Fixpoint mapM {A B} (f : A -> result B) (l : list A) : result (list B) :=
  match l with
  | [] => ret []
  | x :: l' => do y <- f x; do ys <- mapM f l'; ret (y :: ys)
  end.

End Py.

Import Py.

(** ** The chunking loop (lines 67-78) *)

Module Chunking.

Definition n_segments : nat := 4.

(** The body of the loop up to [chunk_offsets[-1] = ...], as a function of
    [n_messages = len(feedlist)]. *)
Definition chunk_offsets (n_messages : nat) : result (list (nat * nat)) :=
  let step_size := n_messages / n_segments in
  do offsets <- range 0 n_messages (n_messages / n_segments);
  let offsets := tail offsets in
  do starts <- range 0 n_messages step_size;
  do stops <- range 0 n_messages step_size;
  let chunk_offsets := zip (removelast starts) (tail stops) in
  update_last chunk_offsets (fun c => (fst c, n_messages)).

(** [chunks = [feedlist[start:stop] for (start, stop) in chunk_offsets]]. *)
Definition chunks {A} (feedlist : list A) : result (list (list A)) :=
  do chunk_offsets <- chunk_offsets (length feedlist);
  ret (map (fun '(start, stop) => slice feedlist start stop) chunk_offsets).

(** The whole loop: every feed's list is replaced by its chunks; the first
    feed that raises stops the script. *)
Definition chunk_all {A} (feed_message_map : gmap string (list A))
  : result (gmap string (list (list A))) :=
  do kvs <- mapM (fun kv => do c <- chunks (snd kv); ret (fst kv, c))
                 (map_to_list feed_message_map);
  ret (list_to_map kvs).

(** [contiguous a offs b]: the intervals of [offs] are non-empty, each one
    starts where the previous one stops, the first starts at [a] and the
    last stops at [b]. *)
Fixpoint contiguous (a : nat) (offs : list (nat * nat)) (b : nat) : Prop :=
  match offs with
  | [] => a = b
  | (start, stop) :: offs' => start = a /\ start < stop /\ contiguous stop offs' b
  end.

End Chunking.

(** ** Grouping the message files by feed (lines 23-65) *)

Module Feeds.

Definition splitname (name : string) : string * string :=
  let origname := name in
  let name := str_slice name (Some 5%Z) None in
  let first_splitter_idx := find name "_"%char in
  let trainlines := str_slice name None (Some first_splitter_idx) in
  let name := str_slice name (Some (first_splitter_idx + 1)%Z) None in
  let second_splitter_idx := find name "_"%char in
  let date := str_slice name None (Some second_splitter_idx) in
  let name :=
    str_slice (str_slice name (Some (second_splitter_idx + 1)%Z) None)
              None (Some (-5)%Z) in
  (origname, trainlines).

Definition data_dir : string := "./data/20190601/".

(** [listing] is what [os.listdir] returns for the extracted archive. *)
Definition messageinfo (listing : list string) : list (string * string) :=
  map splitname (sorted listing).

Definition unique_feeds (messageinfo : list (string * string)) : gset string :=
  list_to_set (map snd messageinfo).

(** The list comprehension of lines 61-64 for one feed. *)
Definition feed_files (messageinfo : list (string * string)) (feed : string)
  : list string :=
  sorted (map (fun '(filename, feed_identifier) => data_dir +:+ filename)
              (filter (fun '(filename, feed_identifier) => feed_identifier = feed)
                      messageinfo)).

Definition feed_message_map (listing : list string) : gmap string (list string) :=
  let messageinfo := messageinfo listing in
  foldl (fun feed_message_map feed =>
           <[feed := feed_files messageinfo feed]> feed_message_map)
        ∅ (elements (unique_feeds messageinfo)).

(** The date and time fields of a file name, as [splitname] computes them
    in its locals [date] and [name] (lines 29-33) before it returns. *)
Definition date_time (name : string) : string * string :=
  let name := str_slice name (Some 5%Z) None in
  let first_splitter_idx := find name "_"%char in
  let name := str_slice name (Some (first_splitter_idx + 1)%Z) None in
  let second_splitter_idx := find name "_"%char in
  let date := str_slice name None (Some second_splitter_idx) in
  let name :=
    str_slice (str_slice name (Some (second_splitter_idx + 1)%Z) None)
              None (Some (-5)%Z) in
  (date, name).

(** The number a string of decimal digits writes, as in [20190601] and
    [042000]. *)
Definition is_digit (c : ascii) : bool :=
  (48 <=? N_of_ascii c)%N && (N_of_ascii c <=? 57)%N.

Definition all_digits (s : string) : bool :=
  forallb is_digit (list_ascii_of_string s).

Fixpoint decimal (acc : N) (s : string) : N :=
  match s with
  | EmptyString => acc
  | String c s' => decimal (10 * acc + (N_of_ascii c - 48))%N s'
  end.

(** [not_later name1 name2]: the snapshot named [name1] was taken no later
    than the one named [name2], by date and then by time of day. *)
Definition not_later (name1 name2 : string) : Prop :=
  (decimal 0 (fst (date_time name1)) < decimal 0 (fst (date_time name2)))%N \/
  (decimal 0 (fst (date_time name1)) = decimal 0 (fst (date_time name2)) /\
   (decimal 0 (snd (date_time name1)) <= decimal 0 (snd (date_time name2)))%N).

(** The archive's naming scheme for the files of one feed: a fixed
    five-character prefix, the feed identifier, and a date and a time of
    fixed widths, followed by a five-character extension. *)
Definition archive_name (prefix feed : string) (date_width time_width : nat)
    (name : string) : Prop :=
  exists date time ext,
    name = prefix +:+ feed +:+ String "_" (date +:+ String "_" (time +:+ ext)) /\
    all_digits date = true /\ all_digits time = true /\
    String.length date = date_width /\ String.length time = time_width /\
    String.length ext = 5.

End Feeds.

(** ** Parsing, merging and exporting (lines 80-141) *)

Module Driver.

(** A row of [stops.txt] as far as the script reads it. *)
Record StopRow : Type := { row_stop_id : string; row_stop_name : string }.

(** What [stops.loc[label]] selects: one row when the label is unique in
    the index, a sub-frame when it is repeated. *)
Inductive Selection : Type :=
  | OneRow (row : StopRow)
  | SubFrame (rows : list StopRow).

(** The [stop_name] attribute of a selection: a scalar or a column. *)
Inductive StopName : Type :=
  | Scalar (name : string)
  | Column (names : list string).

Definition in_index (stops : list StopRow) (label : string) : bool :=
  bool_decide (label ∈ map row_stop_id stops).

Definition loc (stops : list StopRow) (label : string) : result Selection :=
  match filter (fun row => row_stop_id row = label) stops with
  | [] => raise (KeyError label)
  | [row] => ret (OneRow row)
  | rows => ret (SubFrame rows)
  end.

Definition stop_name (sel : Selection) : StopName :=
  match sel with
  | OneRow row => Scalar (row_stop_name row)
  | SubFrame rows => Column (map row_stop_name rows)
  end.

(** [stops] is the module-level table, indexed by [stop_id]. *)
Definition get_stop_name_for_stop_id (stops : list StopRow) (stop_id : string)
  : result (option StopName) :=
  if in_index stops stop_id then
    do sel <- loc stops stop_id; ret (Some (stop_name sel))
  else ret None.

(** Names bound at module level when line 124 runs: by the imports, by the
    assignments and loops above it, and by [def splitname]. *)
Definition imported_names : list string :=
  ["ZipFile"; "os"; "datetime"; "warnings"; "time"; "itertools"; "gt"].

Definition assigned_names : list string :=
  ["OUTPUT_DIR"; "PATH_TO_GTFS_RT_ARCHIVE_FILE"; "PATH_TO_GTFS_ARCHIVE_FILE";
   "splitname"; "messageinfo"; "unique_feeds"; "feed_message_map"; "feed";
   "feed_identifier"; "feedlist"; "n_segments"; "n_messages"; "step_size";
   "offsets"; "chunk_offsets"; "chunks"; "logbooks"; "timestamps";
   "parse_errors"; "sublogs"; "sublogs_timestamps"; "sublogs_parse_errors";
   "chunk"; "messages"; "filename"; "fp"; "sublog"; "sublog_timestamps";
   "sublog_parse_errors"; "_"].

(** Python's built-in functions and constants. *)
Definition builtin_names : list string :=
  ["abs"; "aiter"; "all"; "anext"; "any"; "ascii"; "bin"; "bool";
   "breakpoint"; "bytearray"; "bytes"; "callable"; "chr"; "classmethod";
   "compile"; "complex"; "delattr"; "dict"; "dir"; "divmod"; "enumerate";
   "eval"; "exec"; "filter"; "float"; "format"; "frozenset"; "getattr";
   "globals"; "hasattr"; "hash"; "help"; "hex"; "id"; "input"; "int";
   "isinstance"; "issubclass"; "iter"; "len"; "list"; "locals"; "map"; "max";
   "memoryview"; "min"; "next"; "object"; "oct"; "open"; "ord"; "pow";
   "print"; "property"; "range"; "repr"; "reversed"; "round"; "set";
   "setattr"; "slice"; "sorted"; "staticmethod"; "str"; "sum"; "super";
   "tuple"; "type"; "vars"; "zip"; "__import__";
   "True"; "False"; "None"; "NotImplemented"; "Ellipsis"; "__debug__"].

(** Evaluating a global name: module globals first, then the built-ins,
    else [NameError]. *)
Definition resolve (name : string) : result unit :=
  if bool_decide (name ∈ imported_names ++ assigned_names) then ret tt
  else if bool_decide (name ∈ builtin_names) then ret tt
  else raise (NameError name).

(** The operations the script takes from [gtfs_tripify] and from the trip
    tables it returns.  A logbook is a dict from trip id to a table. *)
Record Libraries : Type := {
  Table : Type;
  Timestamps : Type;
  ParseError : Type;
  Csv : Type;
  logify : list (list Byte.byte)
           -> gmap string Table * Timestamps * list ParseError;
  merge_logbooks : list (gmap string Table * Timestamps)
                   -> result (gmap string Table * Timestamps);
  cut_cancellations : gmap string Table -> gmap string Table;
  stop_id : Table -> list string;
  assign_stop_name : Table -> list (option StopName) -> Table;
  to_csv : gmap string Table -> Csv
}.

Section Script.

Context (lib : Libraries).
(** The content of each message file and of [stops.txt]. *)
Context (read : string -> list Byte.byte) (stops_txt : list StopRow).

(** Lines 101-109: read the chunk's files and build its logbook. *)
Definition parse_chunk (chunk : list string)
  : gmap string (Table lib) * Timestamps lib * list (ParseError lib) :=
  let messages := foldl (fun messages filename => messages ++ [read filename])
                        [] chunk in
  logify lib messages.

(** Lines 98-117 for one feed: the result is the pair
    [(logbooks[feed_identifier], parse_errors[feed_identifier])]. *)
Definition parse_feed (chunks : list (list string))
  : result (gmap string (Table lib) * list (ParseError lib)) :=
  let '(sublogs, sublogs_timestamps, sublogs_parse_errors) :=
    foldl (fun '(sublogs, sublogs_timestamps, sublogs_parse_errors) chunk =>
             let '(sublog, sublog_timestamps, sublog_parse_errors) :=
               parse_chunk chunk in
             (sublogs ++ [sublog],
              sublogs_timestamps ++ [sublog_timestamps],
              sublogs_parse_errors ++ [sublog_parse_errors]))
          ([], [], []) chunks in
  do (logbook, _) <- merge_logbooks lib (zip sublogs sublogs_timestamps);
  ret (logbook, concat sublogs_parse_errors).

(** The loop of line 96 over a list of feed identifiers. *)
Fixpoint parse_feeds (feed_message_map : gmap string (list (list string)))
    (feeds : list string)
    (logbooks : gmap string (gmap string (Table lib)))
    (parse_errors : gmap string (list (ParseError lib)))
  : result (gmap string (gmap string (Table lib))
            * gmap string (list (ParseError lib))) :=
  match feeds with
  | [] => ret (logbooks, parse_errors)
  | feed_identifier :: feeds' =>
      do chunks <- getitem feed_message_map feed_identifier;
      do (logbook, errors) <- parse_feed chunks;
      parse_feeds feed_message_map feeds'
                  (<[feed_identifier := logbook]> logbooks)
                  (<[feed_identifier := errors]> parse_errors)
  end.

(** Lines 56-121: everything before the export stage. *)
Definition before_export (listing : list string)
  : result (gmap string (gmap string (Table lib))
            * gmap string (list (ParseError lib))) :=
  do feed_message_map <- Chunking.chunk_all (Feeds.feed_message_map listing);
  do (logbooks, parse_errors) <- parse_feeds feed_message_map ["7"] ∅ ∅;
  do logbook <- getitem logbooks "7";
  ret (<["7" := cut_cancellations lib logbook]> logbooks, parse_errors).

(** Lines 135-139 for one trip table. *)
Definition annotate (stops : list StopRow) (df : Table lib)
  : result (Table lib) :=
  do stop_names <- mapM (get_stop_name_for_stop_id stops) (stop_id lib df);
  ret (assign_stop_name lib df stop_names).

(** Lines 124-141: the export stage. *)
Definition export (logbooks : gmap string (gmap string (Table lib)))
  : result (Csv lib) :=
  do _ <- resolve "pd";
  let stops := stops_txt in
  do logbook <- getitem logbooks "7";
  do annotated <- mapM (fun kv => do df <- annotate stops (snd kv);
                                  ret (fst kv, df))
                       (map_to_list logbook);
  ret (to_csv lib (list_to_map annotated)).

(** The script; its result is the CSV written by [gt.ops.to_csv]. *)
Definition main (listing : list string) : result (Csv lib) :=
  do (logbooks, parse_errors) <- before_export listing;
  export logbooks.

End Script.

(** A small instance of [Libraries], for running the script on concrete
    inputs: a table is its [stop_id] column paired with the assigned names,
    every message yields one trip keyed by its length, an empty message is
    a parse error, and merging takes the union of the logbooks. *)
Definition sample_lib : Libraries := {|
  Table := list string * list (option StopName);
  Timestamps := list nat;
  ParseError := nat;
  Csv := list (string * (list string * list (option StopName)));
  logify := fun messages =>
    (list_to_map (map (fun m => (String.string_of_list_byte m, (["101"; "102"], [])))
                      (filter (fun m => m <> []) messages)),
     map length messages,
     map (fun _ => 0) (filter (fun m => m = []) messages));
  merge_logbooks := fun pairs =>
    ret (foldl (fun acc p => acc ∪ fst p) ∅ pairs, concat (map snd pairs));
  cut_cancellations := fun logbook => logbook;
  stop_id := fst;
  assign_stop_name := fun df names => (fst df, names);
  to_csv := map_to_list
|}.

Definition sample_read (filename : string) : list Byte.byte :=
  if String.eqb filename "./data/20190601/gtfs_7_20190601_0000.gtfs" then []
  else String.list_byte_of_string filename.

Definition sample_listing : list string :=
  ["gtfs_7_20190601_0000.gtfs"; "gtfs_7_20190601_0600.gtfs";
   "gtfs_7_20190601_1200.gtfs"; "gtfs_7_20190601_1800.gtfs";
   "gtfs_7_20190601_2300.gtfs"].

Definition sample_stops : list StopRow :=
  [{| row_stop_id := "101"; row_stop_name := "Van Cortlandt Park - 242 St" |};
   {| row_stop_id := "103"; row_stop_name := "238 St" |}].

End Driver.

(** ** The stitching engine behind [gt.logify], [gt.ops.merge_logbooks] and
    [gt.ops.cut_cancellations] *)

Module Core.

(** Modelled from the spec: the data model of section 3.  The package
    [gtfs_tripify] is imported by the script and is not among the sources;
    the records below follow the specification's field lists.  Estimates are
    optional because the update's arrival and departure estimates are. *)
Record TripStopUpdate : Type := {
  upd_trip_id : string;
  upd_stop_id : string;
  upd_stop_sequence : Z;
  arrival_estimate : option Z;
  departure_estimate : option Z;
  is_observed : bool
}.

Record DecodedSnapshot : Type := {
  timestamp : Z;
  updates : list TripStopUpdate
}.

Record RawSnapshot : Type := {
  payload : list Byte.byte;
  capture_timestamp : Z
}.

Inductive Status : Type := Scheduled | Arrived | Departed | Skipped.

Record TripRecord : Type := {
  trip_id : string;
  stop_id : string;
  stop_sequence : Z;
  first_seen_estimate : option Z;
  last_seen_estimate : option Z;
  finalized_time : option Z;
  status : Status
}.

Record ParseError : Type := { snapshot_index : nat; reason : string }.

(** A logbook maps a trip id to its records, ordered by [stop_sequence]. *)
Abbreviation Logbook := (gmap string (list TripRecord)).

(** Modelled from the spec: the estimate an update carries (its arrival
    estimate, or else its departure estimate) and the status an observed
    update gives a record ("Arrived/Departed accordingly"), section 4.2. *)
Definition estimate (u : TripStopUpdate) : option Z :=
  match arrival_estimate u with
  | Some t => Some t
  | None => departure_estimate u
  end.

Definition observed_status (u : TripStopUpdate) : Status :=
  match arrival_estimate u with
  | Some _ => Arrived
  | None => Departed
  end.

(** Modelled from the spec: section 4.2 step 1, the record created on the
    first sighting of a trip/stop pair. *)
Definition new_record (u : TripStopUpdate) : TripRecord := {|
  trip_id := upd_trip_id u;
  stop_id := upd_stop_id u;
  stop_sequence := upd_stop_sequence u;
  first_seen_estimate := estimate u;
  last_seen_estimate := estimate u;
  finalized_time := None;
  status := Scheduled
|}.

(** Modelled from the spec: section 4.2 steps 2-4 on the located record. *)
Definition revise (u : TripStopUpdate) (r : TripRecord) : TripRecord :=
  match finalized_time r with
  | Some _ => r
  | None =>
      if is_observed u then
        {| trip_id := trip_id r; stop_id := stop_id r;
           stop_sequence := stop_sequence r;
           first_seen_estimate := first_seen_estimate r;
           last_seen_estimate := last_seen_estimate r;
           finalized_time := estimate u;
           status := observed_status u |}
      else
        {| trip_id := trip_id r; stop_id := stop_id r;
           stop_sequence := stop_sequence r;
           first_seen_estimate := first_seen_estimate r;
           last_seen_estimate := estimate u;
           finalized_time := finalized_time r;
           status := status r |}
  end.

(** Modelled from the spec: "locate" of section 4.2 step 1, a record of a
    trip found by its [stop_sequence]. *)
Definition find_seq (seq : Z) (rs : list TripRecord) : option TripRecord :=
  List.find (fun r => (stop_sequence r =? seq)%Z) rs.

(** Modelled from the spec: the record of a trip/stop pair in a logbook. *)
Definition record_at (L : Logbook) (trip : string) (seq : Z) : option TripRecord :=
  match L !! trip with
  | Some rs => find_seq seq rs
  | None => None
  end.

(** Modelled from the spec: "locate or create" in a sequence ordered by
    [stop_sequence] (section 3); [f] receives the located record, or [None]
    when a record has to be created. *)
Fixpoint upsert (seq : Z) (f : option TripRecord -> TripRecord)
    (rs : list TripRecord) : list TripRecord :=
  match rs with
  | [] => [f None]
  | r :: rs' =>
      if (stop_sequence r =? seq)%Z then f (Some r) :: rs'
      else if (seq <? stop_sequence r)%Z then f None :: r :: rs'
      else r :: upsert seq f rs'
  end.

(** Modelled from the spec: folding one update into the logbook
    (section 4.2, steps 1-4). *)
Definition apply_update (L : Logbook) (u : TripStopUpdate) : Logbook :=
  <[upd_trip_id u :=
      upsert (upd_stop_sequence u)
             (fun located => revise u (default (new_record u) located))
             (default [] (L !! upd_trip_id u))]> L.

(** Modelled from the spec: one decoded snapshot folded into the logbook,
    update by update. *)
Definition fold_snapshot (L : Logbook) (snapshot : DecodedSnapshot) : Logbook :=
  foldl apply_update L (updates snapshot).

(** Modelled from the spec: the builder's fold over decoder results
    (section 4.2): a failed decode is recorded with the snapshot's position,
    a decoded snapshot is folded and its timestamp noted. *)
Fixpoint fold_results (i : nat) (results : list (string + DecodedSnapshot))
    (acc : Logbook * list Z * list ParseError)
  : Logbook * list Z * list ParseError :=
  match results with
  | [] => acc
  | res :: results' =>
      let '(L, timestamps, errors) := acc in
      fold_results (S i) results'
        match res with
        | inl why =>
            (L, timestamps, errors ++ [{| snapshot_index := i; reason := why |}])
        | inr snapshot =>
            (fold_snapshot L snapshot, timestamps ++ [timestamp snapshot], errors)
        end
  end.

Section Decoder.

(** The structure of the binary payload is not described by the
    specification; it is a parameter of the decoder. *)
Context (wire_format : list Byte.byte -> option (list TripStopUpdate)).

Definition nonempty (s : string) : bool := negb (String.eqb s "").

(** Modelled from the spec: [decode] of section 4.1. *)
Definition decode (raw : RawSnapshot) : string + DecodedSnapshot :=
  match wire_format (payload raw) with
  | None => inl "malformed payload"
  | Some us =>
      if forallb (fun u => nonempty (upd_trip_id u) && nonempty (upd_stop_id u)) us
      then inr {| timestamp := capture_timestamp raw; updates := us |}
      else inl "update without trip_id or stop_id"
  end.

(** Modelled from the spec: [build] of section 4.2. *)
Definition build (snapshots : list RawSnapshot)
  : Logbook * list Z * list ParseError :=
  fold_results 0 (map decode snapshots) (∅, [], []).

End Decoder.

(** Modelled from the spec: the merge rule of section 4.3 for a stop that
    appears in two chunks: the later record wins if it carries a
    [finalized_time] the earlier one lacks; otherwise the earlier stands. *)
Definition merge_record (earlier later : TripRecord) : TripRecord :=
  match finalized_time earlier, finalized_time later with
  | None, Some _ => later
  | _, _ => earlier
  end.

(** Modelled from the spec: section 4.3, records of one trip are unioned by
    [stop_sequence]; a later record meets the earlier record located at its
    [stop_sequence], if any. *)
Definition merge_choice (later : TripRecord) (located : option TripRecord)
  : TripRecord :=
  match located with
  | Some earlier => merge_record earlier later
  | None => later
  end.

(** Modelled from the spec: the union of two chunks' records of one trip. *)
Definition merge_trip (earlier later : list TripRecord) : list TripRecord :=
  foldl (fun acc r => upsert (stop_sequence r) (merge_choice r) acc)
        earlier later.

(** Modelled from the spec: the union of two chunks' logbooks; a trip
    present in both has its records merged. *)
Definition merge_logbook (earlier later : Logbook) : Logbook :=
  union_with (fun e l => Some (merge_trip e l)) earlier later.

(** Modelled from the spec: the chronological check of section 4.3 on
    [timestamps_seen]; every timestamp seen so far lies before every
    timestamp of the next chunk. *)
Definition precedes (seen next : list Z) : bool :=
  forallb (fun t => forallb (fun t' => (t <? t')%Z) next) seen.

(** Modelled from the spec: [merge] of section 4.3, a sequential reduction
    over the chunks that fails with an ordering error. *)
Fixpoint merge_from (acc : Logbook * list Z) (chunks : list (Logbook * list Z))
  : result (Logbook * list Z) :=
  match chunks with
  | [] => ret acc
  | (L, timestamps) :: chunks' =>
      if precedes (snd acc) timestamps
      then merge_from (merge_logbook (fst acc) L, snd acc ++ timestamps) chunks'
      else raise OrderingError
  end.

(** Modelled from the spec: [merge] of section 4.3 on all the chunks. *)
Definition merge (chunks : list (Logbook * list Z)) : result (Logbook * list Z) :=
  merge_from (∅, []) chunks.

(** Modelled from the spec: "left [Scheduled]" of section 4.4. *)
Definition is_scheduled (r : TripRecord) : bool :=
  match status r with
  | Scheduled => true
  | _ => false
  end.

(** Modelled from the spec: "a later-sequence record for the same trip was
    finalized" of section 4.4. *)
Definition finalized_later (rs : list TripRecord) (r : TripRecord) : bool :=
  existsb (fun r' => (stop_sequence r <? stop_sequence r')%Z
                     && bool_decide (is_Some (finalized_time r')))
          rs.

(** Modelled from the spec: the heuristic of section 4.4 on one trip.  A
    record is removed when it is still [Scheduled] and a later-sequence
    record of the same trip carries a [finalized_time]; every other record
    is retained. *)
Definition cut_trip (rs : list TripRecord) : list TripRecord :=
  List.filter (fun r => negb (is_scheduled r && finalized_later rs r)) rs.

(** Modelled from the spec: [cut_cancellations] of section 4.4. *)
Definition cut_cancellations (L : Logbook) : Logbook := cut_trip <$> L.

(** The invariant of section 3: within a trip the [stop_sequence] values
    are strictly increasing. *)
Definition ordered (rs : list TripRecord) : Prop :=
  StronglySorted (fun a b => (stop_sequence a < stop_sequence b)%Z) rs.

Definition well_formed (L : Logbook) : Prop :=
  forall trip rs, L !! trip = Some rs -> ordered rs.

(** What a logbook says about the finalization of a trip/stop pair:
    [None] when there is no record, otherwise the record's
    [finalized_time]. *)
Definition finalized_at (L : Logbook) (trip : string) (seq : Z)
  : option (option Z) :=
  finalized_time <$> record_at L trip seq.

(** The updates a sequence of decoder results contributes, in order. *)
Definition decoded_updates (results : list (string + DecodedSnapshot))
  : list TripStopUpdate :=
  flat_map (fun res => match res with
                       | inl _ => []
                       | inr snapshot => updates snapshot
                       end) results.

Definition decoded_timestamps (results : list (string + DecodedSnapshot))
  : list Z :=
  flat_map (fun res => match res with
                       | inl _ => []
                       | inr snapshot => [timestamp snapshot]
                       end) results.

(** The effect of a run of updates on the finalization of one trip/stop
    pair, and the way two such effects combine. *)
Definition touches (u : TripStopUpdate) (trip : string) (seq : Z) : bool :=
  bool_decide (upd_trip_id u = trip) && (upd_stop_sequence u =? seq)%Z.

Definition finalize_step (v : option (option Z)) (u : TripStopUpdate)
  : option (option Z) :=
  match v with
  | Some (Some t) => Some (Some t)
  | _ => Some (if is_observed u then estimate u else None)
  end.

Definition finalize_fold (trip : string) (seq : Z) (v : option (option Z))
    (us : list TripStopUpdate) : option (option Z) :=
  foldl (fun v u => if touches u trip seq then finalize_step v u else v) v us.

Definition finalize_join (v1 v2 : option (option Z)) : option (option Z) :=
  match v1, v2 with
  | Some (Some t), _ => Some (Some t)
  | Some None, Some v => Some v
  | Some None, None => Some None
  | None, v => v
  end.









(** A two-message wire format for running the engine on concrete streams:
    payload [x00] predicts stop 1 of trip T1 at 110, payload [x01] observes
    it at 108, payload [x02] predicts stop 2 of T1 at 140. *)
Definition sample_update (seq est : Z) (observed : bool) : TripStopUpdate := {|
  upd_trip_id := "T1"; upd_stop_id := "S"; upd_stop_sequence := seq;
  arrival_estimate := Some est; departure_estimate := None;
  is_observed := observed
|}.

Definition sample_wire (bytes : list Byte.byte) : option (list TripStopUpdate) :=
  match bytes with
  | [Byte.x00] => Some [sample_update 1 110 false]
  | [Byte.x01] => Some [sample_update 1 108 true]
  | [Byte.x02] => Some [sample_update 2 140 false]
  | _ => None
  end.

Definition sample_stream : list RawSnapshot :=
  [{| payload := [Byte.x00]; capture_timestamp := 100 |};
   {| payload := [Byte.x01]; capture_timestamp := 105 |};
   {| payload := [Byte.x02]; capture_timestamp := 110 |}].

(** A second wire format, in which the feed revises the stop of stop
    sequence 1 of trip T1: payload [x10] predicts stop A at 110, payload
    [x11] observes stop B at 108, payload [x12] reports an observation
    without any estimate. *)
Definition revised_wire (bytes : list Byte.byte) : option (list TripStopUpdate) :=
  match bytes with
  | [Byte.x10] =>
      Some [{| upd_trip_id := "T1"; upd_stop_id := "A"; upd_stop_sequence := 1;
               arrival_estimate := Some 110%Z; departure_estimate := None;
               is_observed := false |}]
  | [Byte.x11] =>
      Some [{| upd_trip_id := "T1"; upd_stop_id := "B"; upd_stop_sequence := 1;
               arrival_estimate := Some 108%Z; departure_estimate := None;
               is_observed := true |}]
  | [Byte.x12] =>
      Some [{| upd_trip_id := "T1"; upd_stop_id := "A"; upd_stop_sequence := 1;
               arrival_estimate := None; departure_estimate := None;
               is_observed := true |}]
  | _ => None
  end.

(** Modelled from the spec: the chunked pipeline of section 4.3, each chunk
    built on its own and the results merged. *)
Definition build_chunked (wire_format : list Byte.byte -> option (list TripStopUpdate))
    (chunks : list (list RawSnapshot)) : result (Logbook * list Z) :=
  merge (map (fun chunk => fst (build wire_format chunk)) chunks).

End Core.

Example range_0_9_2 : range 0 9 2 = inr [0; 2; 4; 6; 8].
Proof. reflexivity. Qed.

Example range_0_8_2 : range 0 8 2 = inr [0; 2; 4; 6].
Proof. reflexivity. Qed.

Example chunk_offsets_8 : Chunking.chunk_offsets 8 = inr [(0, 2); (2, 4); (4, 8)].
Proof. reflexivity. Qed.

Example chunk_offsets_9 :
  Chunking.chunk_offsets 9 = inr [(0, 2); (2, 4); (4, 6); (6, 9)].
Proof. reflexivity. Qed.

Example chunk_offsets_7 :
  Chunking.chunk_offsets 7 = inr [(0, 1); (1, 2); (2, 3); (3, 4); (4, 5); (5, 7)].
Proof. reflexivity. Qed.

Example chunk_offsets_3 : Chunking.chunk_offsets 3 = inl ValueError.
Proof. reflexivity. Qed.

(** ** Properties of the chunking loop *)

Section ChunkingFacts.

Import Chunking.

(** Consecutive pairs of a list: [zip(r[:-1], r[1:])]. *)
Lemma pairs_map_seq {A} (g : nat -> A) (a m : nat) :
  zip (removelast (map g (seq a (S m)))) (tail (map g (seq a (S m))))
  = map (fun i => (g i, g (S i))) (seq a m).
Proof.
  revert a. induction m as [|m IH]; intros a; [reflexivity|].
  specialize (IH (S a)).
  change (seq a (S (S m))) with (a :: seq (S a) (S m)).
  change (seq a (S m)) with (a :: seq (S a) m).
  cbn [map tail]. rewrite <- IH.
  change (seq (S a) (S m)) with (S a :: seq (S (S a)) m).
  reflexivity.
Qed.

Lemma range_pos (n q : nat) :
  0 < q -> range 0 n q = inr (map (fun i => i * q) (seq 0 (range_len 0 n q))).
Proof.
  intros Hq. unfold range. destruct (Nat.eqb_spec q 0) as [->|_]; [lia|].
  reflexivity.
Qed.

Lemma range_zero (n : nat) : range 0 n 0 = inl ValueError.
Proof. reflexivity. Qed.

Lemma update_last_snoc {A} (l : list A) (x : A) (f : A -> A) :
  update_last (l ++ [x]) f = inr (l ++ [f x]).
Proof.
  unfold update_last. rewrite last_snoc. unfold ret. f_equal.
  rewrite length_app. cbn [length]. replace (pred (length l + 1)) with (length l + 0) by lia.
  rewrite insert_app_r. reflexivity.
Qed.

(** Number of range items: [ceil(n / q)]. *)
Lemma range_len_bounds (n q : nat) :
  0 < q -> (range_len 0 n q - 1) * q < n \/ n = 0.
Proof.
  intros Hq. unfold range_len. rewrite Nat.sub_0_r.
  destruct n as [|n]; [by right|left].
  pose proof (Nat.div_mod_eq (S n + q - 1) q) as E.
  pose proof (Nat.mod_upper_bound (S n + q - 1) q ltac:(lia)) as B.
  nia.
Qed.

Lemma range_len_upper (n q : nat) : 0 < q -> n <= range_len 0 n q * q.
Proof.
  intros Hq. unfold range_len. rewrite Nat.sub_0_r.
  pose proof (Nat.div_mod_eq (n + q - 1) q) as E.
  pose proof (Nat.mod_upper_bound (n + q - 1) q ltac:(lia)) as B.
  nia.
Qed.

Lemma range_len_ge_4 (n : nat) : 4 <= n -> 4 <= range_len 0 n (n / 4).
Proof.
  intros Hn.
  assert (0 < n / 4) as Hq by (apply Nat.div_str_pos; lia).
  pose proof (range_len_upper n (n / 4) Hq) as U.
  pose proof (Nat.div_mod_eq n 4) as E.
  pose proof (Nat.mod_upper_bound n 4 ltac:(lia)) as B.
  destruct (le_lt_dec 4 (range_len 0 n (n / 4))) as [|Hlt]; [done|].
  exfalso. nia.
Qed.

(** Closed form of the offsets for feeds of at least four files. *)
Lemma chunk_offsets_closed (n : nat) :
  4 <= n ->
  let q := n / 4 in
  let m := range_len 0 n q in
  chunk_offsets n
  = inr (map (fun i => (i * q, S i * q)) (seq 0 (m - 2)) ++ [((m - 2) * q, n)]).
Proof.
  intros Hn q m.
  assert (0 < q) as Hq by (apply Nat.div_str_pos; lia).
  pose proof (range_len_ge_4 n Hn) as Hm. fold q m in Hm.
  unfold chunk_offsets, n_segments. fold q.
  rewrite (range_pos n q Hq). fold m. cbn [bind].
  replace m with (S (S (m - 2))) at 1 2 by lia.
  rewrite (pairs_map_seq (fun i => i * q) 0 (S (m - 2))).
  rewrite seq_S, map_app. cbn [map].
  rewrite update_last_snoc. reflexivity.
Qed.

Lemma contiguous_le a offs b : contiguous a offs b -> a <= b.
Proof.
  revert a. induction offs as [|[s e] offs IH]; intros a; cbn; [lia|].
  intros (-> & Hlt & Hc). apply IH in Hc. lia.
Qed.

Lemma contiguous_lookup a offs b i s e :
  contiguous a offs b -> offs !! i = Some (s, e) ->
  a <= s /\ s < e /\ e <= b /\ contiguous e (drop (S i) offs) b.
Proof.
  revert a i. induction offs as [|[s0 e0] offs IH]; intros a i; cbn; [done|].
  intros (-> & Hlt & Hc). destruct i as [|i]; cbn.
  - intros [= <- <-]. pose proof (contiguous_le _ _ _ Hc). rewrite drop_0.
    repeat split; [lia..|done].
  - intros Hi. destruct (IH _ _ Hc Hi) as (? & ? & ? & ?).
    repeat split; [lia..|done].
Qed.

Lemma contiguous_closed (q n a k : nat) :
  0 < q -> (a + k) * q < n ->
  contiguous (a * q)
    (map (fun i => (i * q, S i * q)) (seq a k) ++ [((a + k) * q, n)]) n.
Proof.
  intros Hq. revert a. induction k as [|k IH]; intros a Hlt; cbn.
  - rewrite Nat.add_0_r in *. done.
  - split; [done|]. split; [lia|].
    replace (a + S k) with (S a + k) in * by lia.
    change (q + a * q) with (S a * q). by apply IH.
Qed.

Lemma contiguous_concat {A} (l : list A) a offs b :
  contiguous a offs b ->
  concat (map (fun '(start, stop) => slice l start stop) offs) = slice l a b.
Proof.
  revert a. induction offs as [|[s e] offs IH]; intros a; cbn.
  - intros ->. unfold slice. by rewrite drop_ge by (rewrite length_take; lia).
  - intros (-> & Hlt & Hc). rewrite (IH _ Hc). unfold slice.
    pose proof (contiguous_le _ _ _ Hc) as Hle.
    rewrite <- (take_drop (e - a) (drop a (take b l))).
    f_equal.
    + rewrite !take_drop_commute, take_take.
      replace (a + (e - a)) with e by lia. by rewrite Nat.min_l by lia.
    + rewrite drop_drop. f_equal. lia.
Qed.

Lemma chunks_closed {A} (feedlist : list A) offs :
  chunk_offsets (length feedlist) = inr offs ->
  chunks feedlist
  = inr (map (fun '(start, stop) => slice feedlist start stop) offs).
Proof. intros E. unfold chunks. by rewrite E. Qed.

Lemma chunk_offsets_contiguous (n : nat) :
  4 <= n ->
  exists offs start,
    chunk_offsets n = inr offs /\ contiguous 0 offs n /\
    last offs = Some (start, n) /\ length offs = range_len 0 n (n / 4) - 1.
Proof.
  intros Hn. pose proof (chunk_offsets_closed n Hn) as E. cbn zeta in E.
  assert (0 < n / 4) as Hq by (apply Nat.div_str_pos; lia).
  pose proof (range_len_ge_4 n Hn) as Hm.
  destruct (range_len_bounds n (n / 4) Hq) as [Hb|]; [|lia].
  eexists _, _. split; [exact E|]. split; [|split].
  - apply (contiguous_closed (n / 4) n 0 (range_len 0 n (n / 4) - 2) Hq).
    eapply Nat.le_lt_trans; [|exact Hb]. apply Nat.mul_le_mono_r.
    lia.
  - apply last_snoc.
  - rewrite length_app, length_map, length_seq. cbn [length]. lia.
Qed.

(** C1: for a feed of n >= 4 files, the chunk intervals start at 0, end at
    n, are non-empty, each one starts where the previous one stops, no two
    overlap, and concatenating the chunks gives back the file list in its
    original order. *)
Theorem chunks_partition {A} (feedlist : list A) :
  4 <= length feedlist ->
  exists offs cs,
    chunk_offsets (length feedlist) = inr offs /\
    chunks feedlist = inr cs /\
    cs = map (fun '(start, stop) => slice feedlist start stop) offs /\
    (exists stop, offs !! 0 = Some (0, stop)) /\
    (exists start, last offs = Some (start, length feedlist)) /\
    (forall i start stop, offs !! i = Some (start, stop) -> start < stop) /\
    (forall i c c', offs !! i = Some c -> offs !! S i = Some c' -> fst c' = snd c) /\
    (forall i j c c',
        i < j -> offs !! i = Some c -> offs !! j = Some c' -> snd c <= fst c') /\
    concat cs = feedlist.
Proof.
  intros Hn.
  destruct (chunk_offsets_contiguous _ Hn) as (offs & start & E & Hc & Hlast & Hlen).
  exists offs, (map (fun '(start, stop) => slice feedlist start stop) offs).
  split; [done|]. split; [by apply chunks_closed|]. split; [done|].
  repeat split.
  - destruct offs as [|[s e] offs]; [done|]. cbn in Hc. destruct Hc as (-> & _).
    by exists e.
  - by exists start.
  - intros i s e Hi. by destruct (contiguous_lookup _ _ _ _ _ _ Hc Hi) as (_ & ? & _).
  - intros i [s e] [s' e'] Hi Hi'.
    destruct (contiguous_lookup _ _ _ _ _ _ Hc Hi) as (_ & _ & _ & Hd).
    rewrite <- (Nat.add_0_r (S i)), <- lookup_drop in Hi'.
    destruct (drop (S i) offs) as [|[s0 e0] rest]; [done|].
    cbn in Hi', Hd. destruct Hd as (-> & _). by injection Hi' as <- <-.
  - intros i j [s e] [s' e'] Hij Hi Hj.
    destruct (contiguous_lookup _ _ _ _ _ _ Hc Hi) as (_ & _ & _ & Hd).
    replace j with (S i + (j - S i)) in Hj by lia. rewrite <- lookup_drop in Hj.
    by destruct (contiguous_lookup _ _ _ _ _ _ Hd Hj) as (? & _).
  - rewrite (contiguous_concat feedlist _ _ _ Hc). unfold slice.
    by rewrite drop_0, firstn_all.
Qed.

Lemma chunks_partition_witness :
  exists offs cs,
    chunk_offsets 9 = inr offs /\
    chunks [10; 11; 12; 13; 14; 15; 16; 17; 18] = inr cs /\
    cs = map (fun '(start, stop) =>
                slice [10; 11; 12; 13; 14; 15; 16; 17; 18] start stop) offs /\
    (exists stop, offs !! 0 = Some (0, stop)) /\
    (exists start, last offs = Some (start, 9)) /\
    (forall i start stop, offs !! i = Some (start, stop) -> start < stop) /\
    (forall i c c', offs !! i = Some c -> offs !! S i = Some c' -> fst c' = snd c) /\
    (forall i j c c',
        i < j -> offs !! i = Some c -> offs !! j = Some c' -> snd c <= fst c') /\
    concat cs = [10; 11; 12; 13; 14; 15; 16; 17; 18].
Proof.
  apply (chunks_partition [10; 11; 12; 13; 14; 15; 16; 17; 18]). simpl. lia.
Defined.

(** Number of range items for a feed of [n = 4 * q + r] files, [r < 4]. *)
Lemma range_len_div4 (n : nat) :
  4 <= n ->
  (n mod 4 = 0 -> range_len 0 n (n / 4) = 4) /\
  (n mod 4 <> 0 -> n mod 4 <= n / 4 -> range_len 0 n (n / 4) = 5) /\
  (n / 4 < n mod 4 -> 6 <= range_len 0 n (n / 4)).
Proof.
  intros Hn.
  assert (0 < n / 4) as Hq by (apply Nat.div_str_pos; lia).
  pose proof (Nat.div_mod_eq n 4) as E.
  pose proof (Nat.mod_upper_bound n 4 ltac:(lia)) as B.
  unfold range_len. rewrite Nat.sub_0_r.
  set (q := n / 4) in *. set (r := n mod 4) in *.
  repeat split.
  - intros Hr. symmetry. apply (Nat.div_unique _ _ _ (q - 1)); lia.
  - intros Hr Hle. symmetry. apply (Nat.div_unique _ _ _ (r - 1)); lia.
  - intros Hlt. apply Nat.div_le_lower_bound; lia.
Qed.

(** The number of chunks: the loop yields [ceil(n / (n // 4)) - 1] chunks,
    which is 3 when n is a multiple of 4, 4 when n is not a multiple of 4 and
    [n mod 4 <= n // 4], and more than 4 otherwise; in every case the last
    interval ends at n, so the last chunk holds every remaining file. *)
Theorem chunk_count {A} (feedlist : list A) :
  4 <= length feedlist ->
  exists offs cs start,
    chunk_offsets (length feedlist) = inr offs /\
    chunks feedlist = inr cs /\
    length cs = length offs /\
    last offs = Some (start, length feedlist) /\
    last cs = Some (drop start feedlist) /\
    (length feedlist mod 4 = 0 -> length cs = 3) /\
    (length feedlist mod 4 <> 0 ->
       length feedlist mod 4 <= length feedlist / 4 -> length cs = 4) /\
    (length feedlist / 4 < length feedlist mod 4 -> 4 < length cs).
Proof.
  intros Hn.
  destruct (chunk_offsets_contiguous _ Hn) as (offs & start & E & Hc & Hlast & Hlen).
  destruct (range_len_div4 _ Hn) as (H0 & H1 & H2).
  exists offs, (map (fun '(start, stop) => slice feedlist start stop) offs), start.
  rewrite length_map, Hlen.
  split; [done|]. split; [by apply chunks_closed|]. split; [done|].
  split; [done|]. split.
  - change (map ?f offs) with (f <$> offs).
    rewrite fmap_last, Hlast. cbn. unfold slice.
    by rewrite firstn_all.
  - repeat split.
    + intros Hr. rewrite (H0 Hr). done.
    + intros Hr Hle. rewrite (H1 Hr Hle). done.
    + intros Hlt. specialize (H2 Hlt). lia.
Qed.

Lemma chunk_count_witness :
  exists offs cs start,
    chunk_offsets 9 = inr offs /\
    chunks [10; 11; 12; 13; 14; 15; 16; 17; 18] = inr cs /\
    length cs = length offs /\
    last offs = Some (start, 9) /\
    last cs = Some (drop start [10; 11; 12; 13; 14; 15; 16; 17; 18]) /\
    (9 mod 4 = 0 -> length cs = 3) /\
    (9 mod 4 <> 0 -> 9 mod 4 <= 9 / 4 -> length cs = 4) /\
    (9 / 4 < 9 mod 4 -> 4 < length cs).
Proof.
  apply (chunk_count [10; 11; 12; 13; 14; 15; 16; 17; 18]). simpl. lia.
Defined.

(** C4: a feed of six files (six is not a multiple of 4) is cut into five
    chunks, [0:1], [1:2], [2:3], [3:4] and [4:6], where the claim, the
    constant [n_segments] and the comment above the loop ("split into four
    segments") call for four. *)
Lemma chunk_count_six :
  4 <= length [10; 11; 12; 13; 14; 15] /\
  length [10; 11; 12; 13; 14; 15] mod 4 <> 0 /\
  chunks [10; 11; 12; 13; 14; 15] = inr [[10]; [11]; [12]; [13]; [14; 15]] /\
  length [[10]; [11]; [12]; [13]; [14; 15]] <> 4.
Proof. repeat split; cbn; lia. Qed.

(** C5: chunking a feed succeeds exactly when the feed has at least four
    files; with fewer, [step_size] is 0, the first [range] call raises
    [ValueError], and no chunk is produced. *)
Theorem chunks_defined_iff {A} (feedlist : list A) :
  ((exists cs, chunks feedlist = inr cs) <-> 4 <= length feedlist) /\
  (length feedlist < 4 ->
     length feedlist / n_segments = 0 /\
     range 0 (length feedlist) (length feedlist / n_segments) = inl ValueError /\
     chunk_offsets (length feedlist) = inl ValueError /\
     chunks feedlist = inl ValueError).
Proof.
  assert (length feedlist < 4 ->
     length feedlist / n_segments = 0 /\
     range 0 (length feedlist) (length feedlist / n_segments) = inl ValueError /\
     chunk_offsets (length feedlist) = inl ValueError /\
     chunks feedlist = inl ValueError) as Hsmall.
  { intros Hlt. unfold chunks, chunk_offsets, n_segments.
    rewrite (Nat.div_small _ 4 Hlt). by rewrite range_zero. }
  split; [|done]. split.
  - intros [cs E]. destruct (le_lt_dec 4 (length feedlist)) as [|Hlt]; [done|].
    destruct (Hsmall Hlt) as (_ & _ & _ & E'). congruence.
  - intros Hn. destruct (chunk_offsets_contiguous _ Hn) as (offs & _ & E & _).
    eexists. by apply chunks_closed.
Qed.

Lemma chunks_defined_iff_witness :
  (4 <= length [10; 11; 12; 13] /\ exists cs, chunks [10; 11; 12; 13] = inr cs) /\
  (length [10; 11; 12] < 4 /\ chunks [10; 11; 12] = inl ValueError).
Proof.
  split.
  - split; [simpl; lia|].
    apply (proj1 (chunks_defined_iff [10; 11; 12; 13])). simpl. lia.
  - split; [simpl; lia|].
    apply (proj2 (chunks_defined_iff [10; 11; 12])). simpl. lia.
Defined.

End ChunkingFacts.

Example splitname_7 :
  Feeds.splitname "gtfs_7_20190601_042000.gtfs"
  = ("gtfs_7_20190601_042000.gtfs", "7").
Proof. reflexivity. Qed.

Example splitname_ace :
  Feeds.splitname "gtfs_ace_20190601_042000.gtfs"
  = ("gtfs_ace_20190601_042000.gtfs", "ace").
Proof. reflexivity. Qed.

(** Without a separator [find] is [-1] and the slice drops the last
    character. *)
Example splitname_no_separator : Feeds.splitname "gtfs_si" = ("gtfs_si", "s").
Proof. reflexivity. Qed.

Example feed_message_map_two_feeds :
  Feeds.feed_message_map
    ["gtfs_7_20190601_0420.gtfs"; "gtfs_ace_20190601_0400.gtfs";
     "gtfs_7_20190601_0400.gtfs"] !! "7"
  = Some ["./data/20190601/gtfs_7_20190601_0400.gtfs";
          "./data/20190601/gtfs_7_20190601_0420.gtfs"].
Proof. vm_compute. reflexivity. Qed.

(** ** Properties of the grouping *)

Section FeedsFacts.

Import Feeds.

Lemma splitname_fst (name : string) : fst (splitname name) = name.
Proof. reflexivity. Qed.

Lemma sorted_Permutation (l : list string) : sorted l ≡ₚ l.
Proof. apply merge_sort_Permutation. Qed.

Lemma sorted_Sorted (l : list string) : Sorted String.le (sorted l).
Proof. apply (Sorted_merge_sort String.le). Qed.

Lemma lookup_foldl_insert {V} (g : string -> V) (l : list string)
      (m : gmap string V) (k : string) :
  foldl (fun m k => <[k := g k]> m) m l !! k
  = if decide (k ∈ l) then Some (g k) else m !! k.
Proof.
  revert m. induction l as [|k' l IH]; intros m; cbn.
  - by rewrite decide_False by set_solver.
  - rewrite IH. destruct (decide (k ∈ l)) as [Hin|Hnin].
    + by rewrite decide_True by set_solver.
    + destruct (decide (k = k')) as [->|Hne].
      * rewrite lookup_insert_eq. by rewrite decide_True by set_solver.
      * rewrite lookup_insert_ne by done.
        rewrite decide_False; [done|].
        intros [?|?]%elem_of_cons; congruence.
Qed.

Lemma feed_message_map_lookup (listing : list string) (feed : string) :
  feed_message_map listing !! feed
  = if decide (feed ∈ map (fun name => snd (splitname name)) listing)
    then Some (feed_files (messageinfo listing) feed)
    else None.
Proof.
  unfold feed_message_map.
  rewrite (lookup_foldl_insert (feed_files (messageinfo listing))).
  rewrite lookup_empty.
  assert (feed ∈ elements (unique_feeds (messageinfo listing))
          <-> feed ∈ map (fun name => snd (splitname name)) listing) as Hiff.
  { unfold unique_feeds, messageinfo.
    rewrite elem_of_elements, elem_of_list_to_set, map_map.
    change (map ?f ?l) with (f <$> l).
    by rewrite (sorted_Permutation listing). }
  destruct (decide (feed ∈ elements _)), (decide (feed ∈ map _ listing)); tauto.
Qed.

Lemma feed_files_Permutation (listing : list string) (feed : string) :
  feed_files (messageinfo listing) feed
  ≡ₚ map (fun name => data_dir +:+ name)
         (filter (fun name => snd (splitname name) = feed) listing).
Proof.
  unfold feed_files, messageinfo. rewrite sorted_Permutation.
  rewrite <- (sorted_Permutation listing) at 2.
  induction (sorted listing) as [|name l IH]; [done|].
  cbn [map]. rewrite !filter_cons. cbn.
  destruct (decide _); cbn; by rewrite IH.
Qed.

(** Grouping: for a feed identifier occurring among the listed file names,
    [feed_message_map] holds exactly the paths of the files whose names
    [splitname] maps to that identifier (each once per listed name), in
    ascending lexicographic order. *)
Theorem feed_message_map_groups (listing : list string) (feed : string) :
  feed ∈ map (fun name => snd (splitname name)) listing ->
  exists files,
    feed_message_map listing !! feed = Some files /\
    files ≡ₚ map (fun name => data_dir +:+ name)
               (filter (fun name => snd (splitname name) = feed) listing) /\
    (forall path,
        path ∈ files <->
        exists name, name ∈ listing /\ snd (splitname name) = feed /\
                     path = data_dir +:+ name) /\
    Sorted String.le files.
Proof.
  intros Hin. exists (feed_files (messageinfo listing) feed).
  split; [|split; [|split]].
  - rewrite feed_message_map_lookup. by rewrite decide_True.
  - apply feed_files_Permutation.
  - intros path. rewrite (feed_files_Permutation listing feed).
    change (map ?f ?l) with (f <$> l). rewrite list_elem_of_fmap. split.
    + intros (name & -> & Hn). apply list_elem_of_filter in Hn as [? ?]. eauto.
    + intros (name & Hn & Hf & ->). exists name. split; [done|].
      by apply list_elem_of_filter.
  - apply sorted_Sorted.
Qed.

Lemma feed_message_map_groups_witness :
  exists files,
    feed_message_map
      ["gtfs_7_20190601_0420.gtfs"; "gtfs_ace_20190601_0400.gtfs";
       "gtfs_7_20190601_0400.gtfs"] !! "7" = Some files /\
    files ≡ₚ ["./data/20190601/gtfs_7_20190601_0420.gtfs";
              "./data/20190601/gtfs_7_20190601_0400.gtfs"] /\
    Sorted String.le files.
Proof.
  destruct (feed_message_map_groups
    ["gtfs_7_20190601_0420.gtfs"; "gtfs_ace_20190601_0400.gtfs";
     "gtfs_7_20190601_0400.gtfs"] "7") as (files & E & P & _ & S).
  - vm_compute. apply list_elem_of_here.
  - exists files. split; [exact E|]. split; [exact P|exact S].
Defined.

End FeedsFacts.

(** ** Properties of the parsing loop and of the export stage *)

Section DriverFacts.

Import Driver.

Context (lib : Libraries) (read : string -> list Byte.byte).

Lemma parse_chunk_logify (chunk : list string) :
  parse_chunk lib read chunk = logify lib (map read chunk).
Proof.
  unfold parse_chunk. f_equal.
  assert (forall acc,
    foldl (fun messages filename => messages ++ [read filename]) acc chunk
    = acc ++ map read chunk) as H.
  { induction chunk as [|f chunk IH]; intros acc; cbn.
    - by rewrite app_nil_r.
    - rewrite IH. by rewrite <- app_assoc. }
  apply H.
Qed.

(** The three accumulators of the loop of line 100. *)
Lemma parse_loop_accumulates (chunks : list (list string)) sublogs ts errs :
  foldl (fun '(sublogs, sublogs_timestamps, sublogs_parse_errors) chunk =>
           let '(sublog, sublog_timestamps, sublog_parse_errors) :=
             parse_chunk lib read chunk in
           (sublogs ++ [sublog],
            sublogs_timestamps ++ [sublog_timestamps],
            sublogs_parse_errors ++ [sublog_parse_errors]))
        (sublogs, ts, errs) chunks
  = (sublogs ++ map (fun c => fst (fst (parse_chunk lib read c))) chunks,
     ts ++ map (fun c => snd (fst (parse_chunk lib read c))) chunks,
     errs ++ map (fun c => snd (parse_chunk lib read c)) chunks).
Proof.
  revert sublogs ts errs. induction chunks as [|c chunks IH]; intros; cbn.
  - by rewrite !app_nil_r.
  - destruct (parse_chunk lib read c) as [[sublog t] e] eqn:E. cbn.
    rewrite IH. by rewrite <- !app_assoc.
Qed.

Lemma parse_feed_unfold (chunks : list (list string)) :
  parse_feed lib read chunks
  = (do (logbook, _) <-
       merge_logbooks lib
         (map (fun c => fst (logify lib (map read c))) chunks);
     ret (logbook, concat (map (fun c => snd (logify lib (map read c))) chunks))).
Proof.
  unfold parse_feed. rewrite parse_loop_accumulates. cbn [app].
  assert (zip (map (fun c => fst (fst (parse_chunk lib read c))) chunks)
              (map (fun c => snd (fst (parse_chunk lib read c))) chunks)
          = map (fun c => fst (logify lib (map read c))) chunks) as ->.
  { induction chunks as [|c chunks IH]; [done|]. cbn. rewrite IH.
    rewrite parse_chunk_logify. by destruct (logify lib (map read c)) as [[? ?] ?]. }
  assert (map (fun c => snd (parse_chunk lib read c)) chunks
          = map (fun c => snd (logify lib (map read c))) chunks) as ->.
  { apply map_ext. intros c. by rewrite parse_chunk_logify. }
  reflexivity.
Qed.

Lemma parse_feeds_other fmm feeds lbs pes lbs' pes' (feed : string) :
  parse_feeds lib read fmm feeds lbs pes = inr (lbs', pes') ->
  feed ∉ feeds -> pes' !! feed = pes !! feed.
Proof.
  revert lbs pes. induction feeds as [|f feeds IH]; intros lbs pes; cbn.
  - by intros [= <- <-].
  - intros E Hnin. apply not_elem_of_cons in Hnin as [Hne Hnin].
    destruct (getitem fmm f) as [|chunks]; [done|]. cbn in E.
    destruct (parse_feed lib read chunks) as [|[lb errs]]; [done|]. cbn in E.
    rewrite (IH _ _ E Hnin). by rewrite lookup_insert_ne.
Qed.

Lemma parse_feeds_lookup fmm feeds lbs pes lbs' pes' (feed : string) chunks :
  parse_feeds lib read fmm feeds lbs pes = inr (lbs', pes') ->
  feed ∈ feeds -> fmm !! feed = Some chunks ->
  pes' !! feed
  = Some (concat (map (fun c => snd (logify lib (map read c))) chunks)).
Proof.
  revert lbs pes. induction feeds as [|f feeds IH]; intros lbs pes; cbn.
  - intros _ Hin. by apply elem_of_nil in Hin.
  - intros E Hin Hfmm.
    destruct (getitem fmm f) as [|chunks'] eqn:Hget; [done|]. cbn in E.
    destruct (parse_feed lib read chunks') as [|[lb errs]] eqn:Hpf; [done|].
    cbn in E.
    destruct (decide (feed ∈ feeds)) as [Hin'|Hnin]; [by eapply IH|].
    apply elem_of_cons in Hin as [->|]; [|done].
    rewrite (parse_feeds_other _ _ _ _ _ _ _ E Hnin), lookup_insert_eq.
    unfold getitem in Hget. rewrite Hfmm in Hget. injection Hget as <-.
    rewrite parse_feed_unfold in Hpf.
    destruct (merge_logbooks lib _) as [|[lb' ts']]; [done|].
    cbn in Hpf. by injection Hpf as _ <-.
Qed.

(** C6: parse errors are plain data.  A feed's parsing raises only if
    [merge_logbooks] does, whatever parse errors the chunks reported, and the
    feed's entry in [parse_errors] is the concatenation, in chunk order, of
    the parse-error lists returned by the [logify] call of each chunk. *)
Theorem parse_errors_concatenated
    (fmm : gmap string (list (list string))) (feeds : list string)
    (feed : string) (chunks : list (list string)) lbs pes :
  parse_feeds lib read fmm feeds ∅ ∅ = inr (lbs, pes) ->
  feed ∈ feeds ->
  fmm !! feed = Some chunks ->
  pes !! feed
  = Some (concat (map (fun c => snd (logify lib (map read c))) chunks)) /\
  parse_feed lib read chunks
  = (do (logbook, _) <-
       merge_logbooks lib
         (map (fun c => fst (logify lib (map read c))) chunks);
     ret (logbook, concat (map (fun c => snd (logify lib (map read c))) chunks))).
Proof.
  intros E Hin Hfmm. split.
  - by eapply parse_feeds_lookup.
  - apply parse_feed_unfold.
Qed.

End DriverFacts.

Lemma parse_errors_concatenated_witness :
  exists lbs pes,
    Driver.parse_feeds Driver.sample_lib Driver.sample_read
      {[ "7" := [["./data/20190601/gtfs_7_20190601_0000.gtfs"];
                 ["./data/20190601/gtfs_7_20190601_0600.gtfs"];
                 ["./data/20190601/gtfs_7_20190601_1200.gtfs"]] ]}
      ["7"] ∅ ∅ = inr (lbs, pes) /\
    pes !! "7" = Some [0].
Proof.
  destruct (Driver.parse_feeds Driver.sample_lib Driver.sample_read
      {[ "7" := [["./data/20190601/gtfs_7_20190601_0000.gtfs"];
                 ["./data/20190601/gtfs_7_20190601_0600.gtfs"];
                 ["./data/20190601/gtfs_7_20190601_1200.gtfs"]] ]}
      ["7"] ∅ ∅) as [e|[lbs pes]] eqn:E.
  - exfalso. vm_compute in E. discriminate E.
  - exists lbs, pes. split; [reflexivity|].
    refine (proj1 (parse_errors_concatenated Driver.sample_lib Driver.sample_read
                     _ ["7"] "7"
                     [["./data/20190601/gtfs_7_20190601_0000.gtfs"];
                      ["./data/20190601/gtfs_7_20190601_0600.gtfs"];
                      ["./data/20190601/gtfs_7_20190601_1200.gtfs"]]
                     lbs pes E _ _)).
    + apply list_elem_of_here.
    + apply lookup_singleton_eq.
Defined.

Section ExportFacts.

Import Driver.

Lemma filter_unique_label (stops : list StopRow) (row : StopRow) :
  NoDup (map row_stop_id stops) -> row ∈ stops ->
  filter (fun r => row_stop_id r = row_stop_id row) stops = [row].
Proof.
  induction stops as [|r stops IH]; intros Hnd Hin.
  - by apply elem_of_nil in Hin.
  - cbn [map] in Hnd. apply NoDup_cons in Hnd as [Hnin Hnd]. rewrite filter_cons.
    apply elem_of_cons in Hin as [->|Hin].
    + rewrite decide_True by done. f_equal.
      destruct (filter _ stops) as [|r' rest] eqn:Hf; [done|]. exfalso.
      assert (r' ∈ filter (fun r0 => row_stop_id r0 = row_stop_id r) stops)
        as Hr' by (rewrite Hf; apply list_elem_of_here).
      apply list_elem_of_filter in Hr' as [Heq Hr']. apply Hnin.
      rewrite <- Heq.
      change (map ?f ?l) with (f <$> l). by apply list_elem_of_fmap_2.
    + rewrite decide_False; [by apply IH|]. intros Heq.
      apply Hnin. rewrite Heq.
      change (map ?f ?l) with (f <$> l). by apply list_elem_of_fmap_2.
Qed.

Lemma filter_present_label (stops : list StopRow) (label : string) :
  label ∈ map row_stop_id stops ->
  filter (fun r => row_stop_id r = label) stops <> [].
Proof.
  change (map ?f ?l) with (f <$> l).
  intros (r & -> & Hin)%list_elem_of_fmap Hnil.
  assert (r ∈ filter (fun r' => row_stop_id r' = row_stop_id r) stops) as H
    by by apply list_elem_of_filter.
  rewrite Hnil in H. by apply elem_of_nil in H.
Qed.

(** C8: the lookup returns [None] for a [stop_id] absent from the index of
    the stops table; for a [stop_id] in the index it never raises and
    returns the [stop_name] of the selected rows, which for a table whose
    index has no repeated label is the name recorded in that stop's row. *)
Theorem get_stop_name_for_stop_id_lookup (stops : list StopRow) :
  (forall stop_id,
      stop_id ∉ map row_stop_id stops ->
      get_stop_name_for_stop_id stops stop_id = inr None) /\
  (forall stop_id,
      stop_id ∈ map row_stop_id stops ->
      exists sel, loc stops stop_id = inr sel /\
        get_stop_name_for_stop_id stops stop_id = inr (Some (stop_name sel))) /\
  (forall row,
      NoDup (map row_stop_id stops) -> row ∈ stops ->
      get_stop_name_for_stop_id stops (row_stop_id row)
      = inr (Some (Scalar (row_stop_name row)))).
Proof.
  split; [|split].
  - intros id Hnin. unfold get_stop_name_for_stop_id, in_index.
    by rewrite bool_decide_eq_false_2.
  - intros id Hin. unfold get_stop_name_for_stop_id, in_index.
    rewrite bool_decide_eq_true_2 by done.
    pose proof (filter_present_label stops id Hin) as Hne. unfold loc.
    destruct (filter _ stops) as [|r [|r' rs]]; [done|..]; eexists; by split.
  - intros row Hnd Hin. unfold get_stop_name_for_stop_id, in_index.
    rewrite bool_decide_eq_true_2.
    + unfold loc. by rewrite (filter_unique_label stops row Hnd Hin).
    + change (map ?f ?l) with (f <$> l). by apply list_elem_of_fmap_2.
Qed.

End ExportFacts.

Lemma get_stop_name_for_stop_id_lookup_witness :
  (("102" ∉ map Driver.row_stop_id Driver.sample_stops) /\
   Driver.get_stop_name_for_stop_id Driver.sample_stops "102" = inr None) /\
  (NoDup (map Driver.row_stop_id Driver.sample_stops) /\
   Driver.get_stop_name_for_stop_id Driver.sample_stops "103"
   = inr (Some (Driver.Scalar "238 St"))).
Proof.
  split.
  - assert ("102" ∉ map Driver.row_stop_id Driver.sample_stops) as H
      by (apply (bool_decide_unpack _); vm_compute; exact I).
    split; [exact H|].
    exact (proj1 (get_stop_name_for_stop_id_lookup Driver.sample_stops) "102" H).
  - assert (NoDup (map Driver.row_stop_id Driver.sample_stops)) as H
      by (apply (bool_decide_unpack _); vm_compute; exact I).
    split; [exact H|].
    refine (proj2 (proj2 (get_stop_name_for_stop_id_lookup Driver.sample_stops))
              {| Driver.row_stop_id := "103"; Driver.row_stop_name := "238 St" |}
              H _).
    apply list_elem_of_further, list_elem_of_here.
Defined.

Section ScriptFacts.

Import Driver.

Context (lib : Libraries) (read : string -> list Byte.byte)
        (stops_txt : list StopRow).

Lemma resolve_pd : resolve "pd" = inl (NameError "pd").
Proof. vm_compute. reflexivity. Qed.

Lemma export_NameError logbooks :
  export lib stops_txt logbooks = inl (NameError "pd").
Proof. unfold export. by rewrite resolve_pd. Qed.

(** C3: every run that reaches the export stage raises [NameError] there,
    because [pd] is neither a module global nor a built-in; hence the script
    never returns a CSV, on any input. *)
Theorem export_stage_raises_NameError (listing : list string) logbooks parse_errors :
  before_export lib read listing = inr (logbooks, parse_errors) ->
("pd" ∉ imported_names ++ assigned_names ++ builtin_names) /\
  resolve "pd" = inl (NameError "pd") /\
  export lib stops_txt logbooks = inl (NameError "pd") /\
  main lib read stops_txt listing = inl (NameError "pd") /\
  (forall listing' csv, main lib read stops_txt listing' <> inr csv).
Proof.
  intros E. split; [|split; [|split; [|split]]].
  - apply (bool_decide_unpack _). vm_compute. exact I.
  - apply resolve_pd.
  - apply export_NameError.
  - unfold main. rewrite E. cbn. apply export_NameError.
  - intros listing' csv. unfold main.
    destruct (before_export lib read listing') as [e|[lbs pes]]; cbn; [done|].
    by rewrite export_NameError.
Qed.

End ScriptFacts.

Lemma export_stage_raises_NameError_witness :
  (exists logbooks parse_errors,
      Driver.before_export Driver.sample_lib Driver.sample_read
        Driver.sample_listing = inr (logbooks, parse_errors)) /\
  Driver.main Driver.sample_lib Driver.sample_read Driver.sample_stops
    Driver.sample_listing = inl (NameError "pd").
Proof.
  destruct (Driver.before_export Driver.sample_lib Driver.sample_read
              Driver.sample_listing) as [e|[lbs pes]] eqn:E.
  - exfalso. vm_compute in E. discriminate E.
  - split; [by exists lbs, pes|].
    exact (proj1 (proj2 (proj2 (proj2
      (export_stage_raises_NameError Driver.sample_lib Driver.sample_read
         Driver.sample_stops Driver.sample_listing lbs pes E))))).
Defined.

(** ** The engine on the specification's first scenario *)

Example scenario_T1 :
  Core.record_at (fst (fst (Core.build Core.sample_wire Core.sample_stream))) "T1" 1
  = Some {| Core.trip_id := "T1"; Core.stop_id := "S"; Core.stop_sequence := 1;
            Core.first_seen_estimate := Some 110%Z;
            Core.last_seen_estimate := Some 110%Z;
            Core.finalized_time := Some 108%Z; Core.status := Core.Arrived |}
  /\ Core.record_at (fst (fst (Core.build Core.sample_wire Core.sample_stream))) "T1" 2
  = Some {| Core.trip_id := "T1"; Core.stop_id := "S"; Core.stop_sequence := 2;
            Core.first_seen_estimate := Some 140%Z;
            Core.last_seen_estimate := Some 140%Z;
            Core.finalized_time := None; Core.status := Core.Scheduled |}.
Proof. split; vm_compute; reflexivity. Qed.

(** ** Properties of the cancellation cut *)

Section CutFacts.

Import Core.

Lemma finalized_later_sub (rs rs' : list TripRecord) (r : TripRecord) :
  (forall x, In x rs' -> In x rs) ->
  finalized_later rs' r = true -> finalized_later rs r = true.
Proof.
  unfold finalized_later. rewrite !existsb_exists.
  intros Hsub (x & Hin & Hx). exists x. split; [by apply Hsub|done].
Qed.

Lemma filter_all_true {A} (f : A -> bool) (l : list A) :
  (forall x, In x l -> f x = true) -> List.filter f l = l.
Proof.
  induction l as [|a l IH]; intros H; cbn; [done|].
  rewrite (H a) by (by left). f_equal. apply IH. intros x Hx. apply H. by right.
Qed.

Lemma cut_trip_idempotent (rs : list TripRecord) :
  cut_trip (cut_trip rs) = cut_trip rs.
Proof.
  unfold cut_trip at 1. apply filter_all_true. intros r Hr.
  unfold cut_trip in Hr. apply filter_In in Hr as [Hin Hkeep].
  apply negb_true_iff, andb_false_iff in Hkeep as [Hs|Hl].
  - by rewrite Hs.
  - apply negb_true_iff, andb_false_iff. right.
    destruct (finalized_later (cut_trip rs) r) eqn:E; [|done].
    apply (finalized_later_sub rs) in E; [congruence|].
    intros x Hx. unfold cut_trip in Hx. by apply filter_In in Hx as [? _].
Qed.

(** C10: cutting cancellations twice gives the same logbook as cutting
    once. *)
Theorem cut_cancellations_idempotent (L : Logbook) :
  cut_cancellations (cut_cancellations L) = cut_cancellations L.
Proof.
  unfold cut_cancellations. rewrite <- map_fmap_compose.
  apply map_fmap_ext. intros trip rs _. cbn. apply cut_trip_idempotent.
Qed.

End CutFacts.

(** The third scenario of the specification: a scheduled stop 2 before a
    finalized stop 3 is removed. *)
Example cut_scenario_T3 :
  Core.cut_trip
    [{| Core.trip_id := "T3"; Core.stop_id := "B"; Core.stop_sequence := 2;
        Core.first_seen_estimate := Some 10%Z; Core.last_seen_estimate := Some 12%Z;
        Core.finalized_time := None; Core.status := Core.Scheduled |};
     {| Core.trip_id := "T3"; Core.stop_id := "C"; Core.stop_sequence := 3;
        Core.first_seen_estimate := Some 20%Z; Core.last_seen_estimate := Some 21%Z;
        Core.finalized_time := Some 22%Z; Core.status := Core.Arrived |}]
  = [{| Core.trip_id := "T3"; Core.stop_id := "C"; Core.stop_sequence := 3;
        Core.first_seen_estimate := Some 20%Z; Core.last_seen_estimate := Some 21%Z;
        Core.finalized_time := Some 22%Z; Core.status := Core.Arrived |}].
Proof. reflexivity. Qed.

(** ** Properties of the builder *)

Section BuilderFacts.

Import Core.

Lemma upsert_In (k : Z) f (rs : list TripRecord) (x : TripRecord) :
  In x (upsert k f rs) ->
  In x rs \/ x = f None \/ exists r, stop_sequence r = k /\ x = f (Some r).
Proof.
  induction rs as [|r rs IH]; cbn.
  - intros [<-|[]]. right. by left.
  - destruct (Z.eqb_spec (stop_sequence r) k) as [?|?].
    { intros [<-|?]; [right; right; by eexists|left; by right]. }
    destruct (Z.ltb_spec k (stop_sequence r)) as [?|?].
    { intros [<-|?]; [right; by left|by left]. }
    intros [<-|Hx]; [left; by left|].
    destruct (IH Hx) as [?|?]; [left; by right|by right].
Qed.

Section Upsert.

Context (k : Z) (f : option TripRecord -> TripRecord).
Hypothesis f_created : stop_sequence (f None) = k.
Hypothesis f_located :
  forall r, stop_sequence r = k -> stop_sequence (f (Some r)) = k.

Lemma upsert_ordered (rs : list TripRecord) :
  ordered rs -> ordered (upsert k f rs).
Proof.
  unfold ordered. induction rs as [|r rs IH]; cbn; intros Hs.
  - repeat constructor.
  - apply StronglySorted_inv in Hs as [Hs Hall].
    destruct (Z.eqb_spec (stop_sequence r) k) as [Heq|Hne].
    { constructor; [done|]. rewrite (f_located r Heq), <- Heq. exact Hall. }
    destruct (Z.ltb_spec k (stop_sequence r)) as [Hlt|Hge].
    { constructor; [by constructor|]. rewrite Forall_forall in Hall.
      apply Forall_forall. intros x [->|Hx]%elem_of_cons; rewrite f_created; [done|].
      specialize (Hall x Hx). cbn in Hall. lia. }
    constructor; [by apply IH|].
    rewrite Forall_forall in Hall. apply Forall_forall. intros x Hx.
    apply list_elem_of_In, upsert_In in Hx as [Hx|[->|(r' & Hr' & ->)]].
    + apply Hall. by apply list_elem_of_In.
    + rewrite f_created. lia.
    + rewrite (f_located r' Hr'). lia.
Qed.

Lemma find_seq_above (j : Z) (r : TripRecord) (rs : list TripRecord) :
  (j < stop_sequence r)%Z -> ordered (r :: rs) -> find_seq j (r :: rs) = None.
Proof.
  intros Hlt Hs. apply StronglySorted_inv in Hs as [_ Hall].
  destruct (find_seq j (r :: rs)) as [x|] eqn:E; [exfalso|done].
  apply find_some in E as [Hin Hx]. apply Z.eqb_eq in Hx.
  destruct Hin as [<-|Hin]; [lia|].
  rewrite Forall_forall in Hall.
  apply list_elem_of_In, Hall in Hin. cbn in Hin. lia.
Qed.

Lemma find_seq_upsert (j : Z) (rs : list TripRecord) :
  ordered rs ->
  find_seq j (upsert k f rs)
  = if (j =? k)%Z then Some (f (find_seq k rs)) else find_seq j rs.
Proof.
  induction rs as [|r rs IH]; intros Hs.
  - cbn. rewrite f_created, (Z.eqb_sym k j). by destruct (j =? k)%Z.
  - cbn [upsert].
    destruct (Z.eqb_spec (stop_sequence r) k) as [Heq|Hne].
    { cbn. rewrite (f_located r Heq).
      destruct (Z.eqb_spec (stop_sequence r) k) as [_|?]; [|done].
      rewrite (Z.eqb_sym k j). destruct (Z.eqb_spec j k) as [?|Hjk]; [done|].
      destruct (Z.eqb_spec (stop_sequence r) j) as [?|_]; [congruence|done]. }
    destruct (Z.ltb_spec k (stop_sequence r)) as [Hlt|Hge].
    { rewrite (find_seq_above k r rs Hlt Hs).
      change (find_seq j (f None :: r :: rs))
        with (if (stop_sequence (f None) =? j)%Z then Some (f None)
              else find_seq j (r :: rs)).
      rewrite f_created, (Z.eqb_sym k j). by destruct (j =? k)%Z. }
    change (find_seq j (r :: upsert k f rs))
      with (if (stop_sequence r =? j)%Z then Some r
            else find_seq j (upsert k f rs)).
    change (find_seq j (r :: rs))
      with (if (stop_sequence r =? j)%Z then Some r else find_seq j rs).
    change (find_seq k (r :: rs))
      with (if (stop_sequence r =? k)%Z then Some r else find_seq k rs).
    apply StronglySorted_inv in Hs as [Hs _]. rewrite (IH Hs).
    destruct (Z.eqb_spec (stop_sequence r) k) as [?|_]; [done|].
    destruct (Z.eqb_spec (stop_sequence r) j) as [Hj|_]; [|done].
    destruct (Z.eqb_spec j k) as [?|_]; [congruence|done].
Qed.

End Upsert.

Lemma stop_sequence_revise u r : stop_sequence (revise u r) = stop_sequence r.
Proof. unfold revise. by destruct (finalized_time r), (is_observed u). Qed.

Lemma revise_created u :
  stop_sequence (revise u (default (new_record u) None)) = upd_stop_sequence u.
Proof. by rewrite stop_sequence_revise. Qed.

Lemma revise_located u r :
  stop_sequence r = upd_stop_sequence u ->
  stop_sequence (revise u (default (new_record u) (Some r))) = upd_stop_sequence u.
Proof. intros <-. by rewrite stop_sequence_revise. Qed.

Lemma revise_finalized u r : is_Some (finalized_time r) -> revise u r = r.
Proof. intros [t Ht]. unfold revise. by rewrite Ht. Qed.

Lemma finalized_time_revise u r :
  finalized_time (revise u r)
  = match finalized_time r with
    | Some t => Some t
    | None => if is_observed u then estimate u else None
    end.
Proof.
  unfold revise. destruct (finalized_time r) eqn:E; [done|].
  by destruct (is_observed u).
Qed.

Lemma well_formed_empty : well_formed ∅.
Proof. intros trip rs H. by rewrite lookup_empty in H. Qed.

Lemma ordered_default (L : Logbook) trip :
  well_formed L -> ordered (default [] (L !! trip)).
Proof.
  intros Hwf. destruct (L !! trip) as [rs|] eqn:E; cbn.
  - by eapply Hwf.
  - constructor.
Qed.

Lemma apply_update_well_formed (L : Logbook) u :
  well_formed L -> well_formed (apply_update L u).
Proof.
  intros Hwf trip rs. unfold apply_update.
  destruct (decide (upd_trip_id u = trip)) as [<-|Hne].
  - rewrite lookup_insert_eq. intros [= <-]. apply upsert_ordered.
    + apply revise_created.
    + apply revise_located.
    + by apply ordered_default.
  - rewrite lookup_insert_ne by done. apply Hwf.
Qed.

Lemma foldl_apply_update_well_formed us (L : Logbook) :
  well_formed L -> well_formed (foldl apply_update L us).
Proof.
  revert L. induction us as [|u us IH]; intros L Hwf; cbn; [done|].
  by apply IH, apply_update_well_formed.
Qed.

Lemma record_at_apply_update (L : Logbook) u trip k :
  well_formed L ->
  record_at (apply_update L u) trip k
  = if touches u trip k
    then Some (revise u (default (new_record u) (record_at L trip k)))
    else record_at L trip k.
Proof.
  intros Hwf. unfold record_at, apply_update, touches.
  destruct (decide (upd_trip_id u = trip)) as [<-|Hne].
  - rewrite lookup_insert_eq, bool_decide_eq_true_2 by done. cbn [andb].
    rewrite find_seq_upsert.
    + rewrite (Z.eqb_sym (upd_stop_sequence u) k).
      destruct (Z.eqb_spec k (upd_stop_sequence u)) as [->|_];
        by destruct (L !! upd_trip_id u).
    + apply revise_created.
    + apply revise_located.
    + by apply ordered_default.
  - rewrite lookup_insert_ne, bool_decide_eq_false_2 by done. done.
Qed.

(** A finalized record survives any further updates unchanged. *)
Lemma record_at_foldl_finalized us (L : Logbook) trip k r :
  well_formed L -> record_at L trip k = Some r -> is_Some (finalized_time r) ->
  record_at (foldl apply_update L us) trip k = Some r.
Proof.
  revert L. induction us as [|u us IH]; intros L Hwf Hr Hfin; cbn; [done|].
  apply IH; [by apply apply_update_well_formed| |done].
  rewrite record_at_apply_update by done. rewrite Hr. cbn.
  rewrite revise_finalized by done. by destruct (touches u trip k).
Qed.

(** The three components of the builder's result. *)
Lemma fold_results_components results i (L : Logbook) ts errs :
  fst (fst (fold_results i results (L, ts, errs)))
  = foldl apply_update L (decoded_updates results) /\
  snd (fst (fold_results i results (L, ts, errs)))
  = ts ++ decoded_timestamps results.
Proof.
  revert i L ts errs. induction results as [|res results IH]; intros; cbn.
  - by rewrite app_nil_r.
  - destruct res as [why|snapshot]; cbn.
    + apply IH.
    + destruct (IH (S i) (fold_snapshot L snapshot) (ts ++ [timestamp snapshot]) errs)
        as [-> ->].
      unfold fold_snapshot. by rewrite foldl_app, <- app_assoc.
Qed.

Lemma build_logbook wire snapshots :
  fst (fst (build wire snapshots))
  = foldl apply_update ∅ (decoded_updates (map (decode wire) snapshots)).
Proof. unfold build. apply fold_results_components. Qed.


Lemma build_well_formed wire snapshots :
  well_formed (fst (fst (build wire snapshots))).
Proof.
  rewrite build_logbook. apply foldl_apply_update_well_formed, well_formed_empty.
Qed.

Lemma decoded_updates_app r1 r2 :
  decoded_updates (r1 ++ r2) = decoded_updates r1 ++ decoded_updates r2.
Proof. unfold decoded_updates. apply flat_map_app. Qed.


(** C9 (modelled builder): a record that carries a [finalized_time] after
    some snapshots have been folded is still the same record, with the same
    [finalized_time], after any further snapshots are folded. *)
Theorem finalized_time_never_overwritten wire
    (snapshots more : list RawSnapshot) (trip : string) (seq : Z)
    (r : TripRecord) (t : Z) :
  record_at (fst (fst (build wire snapshots))) trip seq = Some r ->
  finalized_time r = Some t ->
  record_at (fst (fst (build wire (snapshots ++ more)))) trip seq = Some r /\
  finalized_at (fst (fst (build wire (snapshots ++ more)))) trip seq
  = Some (Some t).
Proof.
  intros Hr Ht.
  assert (record_at (fst (fst (build wire (snapshots ++ more)))) trip seq
          = Some r) as H.
  { rewrite build_logbook, map_app, decoded_updates_app, foldl_app.
    rewrite <- build_logbook.
    apply record_at_foldl_finalized; [apply build_well_formed|done|by eexists]. }
  split; [done|]. unfold finalized_at. by rewrite H; cbn; rewrite Ht.
Qed.

End BuilderFacts.

Lemma finalized_time_never_overwritten_witness :
  Core.finalized_at
    (fst (fst (Core.build Core.sample_wire Core.sample_stream))) "T1" 1
  = Some (Some 108%Z).
Proof.
  refine (proj2 (finalized_time_never_overwritten Core.sample_wire
    [{| Core.payload := [Byte.x00]; Core.capture_timestamp := 100 |};
     {| Core.payload := [Byte.x01]; Core.capture_timestamp := 105 |}]
    [{| Core.payload := [Byte.x02]; Core.capture_timestamp := 110 |}]
    "T1" 1
    {| Core.trip_id := "T1"; Core.stop_id := "S"; Core.stop_sequence := 1;
       Core.first_seen_estimate := Some 110%Z;
       Core.last_seen_estimate := Some 110%Z;
       Core.finalized_time := Some 108%Z; Core.status := Core.Arrived |}
    108%Z _ _)); vm_compute; reflexivity.
Defined.

(** ** Properties of the chunk merger *)

Section MergerFacts.

Import Core.

Lemma merge_record_seq e r :
  stop_sequence e = stop_sequence r ->
  stop_sequence (merge_record e r) = stop_sequence r.
Proof.
  intros Heq. unfold merge_record.
  by destruct (finalized_time e), (finalized_time r).
Qed.


Lemma find_seq_merge_trip (k : Z) (earlier later : list TripRecord) :
  ordered earlier -> ordered later ->
  find_seq k (merge_trip earlier later)
  = match find_seq k later with
    | Some l => Some (merge_choice l (find_seq k earlier))
    | None => find_seq k earlier
    end.
Proof.
  unfold merge_trip. revert earlier.
  induction later as [|r later IH]; intros earlier He Hl; cbn [foldl].
  - done.
  - assert (ordered (upsert (stop_sequence r) (merge_choice r) earlier)) as Ho.
    { apply upsert_ordered; [done| |done].
      intros e He'. by apply merge_record_seq. }
    pose proof Hl as Hl'. apply StronglySorted_inv in Hl' as [Hl' Hall].
    rewrite (IH _ Ho Hl').
    rewrite find_seq_upsert; [|done| |done].
    2:{ intros e He'. by apply merge_record_seq. }
    change (find_seq k (r :: later))
      with (if (stop_sequence r =? k)%Z then Some r else find_seq k later).
    rewrite (Z.eqb_sym (stop_sequence r) k).
    destruct (Z.eqb_spec k (stop_sequence r)) as [->|Hne]; [|done].
    destruct later as [|r' later]; [done|].
    rewrite find_seq_above; [done| |done].
    apply Forall_inv in Hall. exact Hall.
Qed.


Lemma record_at_merge_logbook (L1 L2 : Logbook) trip k :
  well_formed L1 -> well_formed L2 ->
  record_at (merge_logbook L1 L2) trip k
  = match record_at L2 trip k with
    | Some l => Some (merge_choice l (record_at L1 trip k))
    | None => record_at L1 trip k
    end.
Proof.
  intros H1 H2. unfold record_at, merge_logbook. rewrite lookup_union_with.
  destruct (L1 !! trip) as [e|] eqn:E1, (L2 !! trip) as [l|] eqn:E2; cbn;
    try done.
  - apply find_seq_merge_trip; [by eapply H1|by eapply H2].
  - by destruct (find_seq k l).
Qed.

Lemma finalized_at_merge_logbook (L1 L2 : Logbook) trip k :
  well_formed L1 -> well_formed L2 ->
  finalized_at (merge_logbook L1 L2) trip k
  = finalize_join (finalized_at L1 trip k) (finalized_at L2 trip k).
Proof.
  intros H1 H2. unfold finalized_at. rewrite record_at_merge_logbook by done.
  destruct (record_at L1 trip k) as [e|], (record_at L2 trip k) as [l|];
    cbn; try done.
  - unfold merge_record.
    by destruct (finalized_time e) eqn:Ee, (finalized_time l) eqn:El; cbn;
      rewrite ?Ee, ?El.
  - by destruct (finalized_time e).
Qed.

Lemma finalized_at_apply_update (L : Logbook) u trip k :
  well_formed L ->
  finalized_at (apply_update L u) trip k
  = if touches u trip k then finalize_step (finalized_at L trip k) u
    else finalized_at L trip k.
Proof.
  intros Hwf. unfold finalized_at. rewrite record_at_apply_update by done.
  destruct (touches u trip k); [|done]. cbn.
  rewrite finalized_time_revise.
  destruct (record_at L trip k) as [r|]; cbn; [|done].
  by destruct (finalized_time r).
Qed.

Lemma finalize_fold_cons trip k v u us :
  finalize_fold trip k v (u :: us)
  = finalize_fold trip k (if touches u trip k then finalize_step v u else v) us.
Proof. reflexivity. Qed.

Lemma finalized_at_foldl us (L : Logbook) trip k :
  well_formed L ->
  finalized_at (foldl apply_update L us) trip k
  = finalize_fold trip k (finalized_at L trip k) us.
Proof.
  revert L. induction us as [|u us IH]; intros L Hwf; [done|].
  rewrite finalize_fold_cons. cbn [foldl].
  rewrite IH by by apply apply_update_well_formed.
  by rewrite finalized_at_apply_update.
Qed.


Lemma finalized_at_empty trip k : finalized_at (∅ : Logbook) trip k = None.
Proof. unfold finalized_at, record_at. by rewrite lookup_empty. Qed.

Lemma finalized_at_build wire snapshots trip k :
  finalized_at (fst (fst (build wire snapshots))) trip k
  = finalize_fold trip k None (decoded_updates (map (decode wire) snapshots)).
Proof.
  rewrite build_logbook, finalized_at_foldl by apply well_formed_empty.
  by rewrite finalized_at_empty.
Qed.

Lemma finalize_fold_app trip k v us1 us2 :
  finalize_fold trip k v (us1 ++ us2)
  = finalize_fold trip k (finalize_fold trip k v us1) us2.
Proof. unfold finalize_fold. apply foldl_app. Qed.

(** *** The record of one trip/stop pair through a build and a merge *)











Section OnePair.

Context (trip : string) (k : Z).












End OnePair.




End MergerFacts.


(** What else a record updated in two chunks can lose in the merge: its
    [stop_id], when the later chunk's record wins and the feed named
    another stop there, and its status while it is not finalized, when the
    earlier record stands. *)
Example merge_differs_in_stop_id_and_status :
  (exists M ts,
      Core.build_chunked Core.revised_wire
        [[{| Core.payload := [Byte.x10]; Core.capture_timestamp := 100 |}];
         [{| Core.payload := [Byte.x11]; Core.capture_timestamp := 105 |}]]
      = inr (M, ts) /\
      Core.stop_id <$> Core.record_at M "T1" 1 = Some "B" /\
      Core.stop_id <$> Core.record_at
        (fst (fst (Core.build Core.revised_wire
           [{| Core.payload := [Byte.x10]; Core.capture_timestamp := 100 |};
            {| Core.payload := [Byte.x11]; Core.capture_timestamp := 105 |}])))
        "T1" 1 = Some "A") /\
  (exists M ts,
      Core.build_chunked Core.revised_wire
        [[{| Core.payload := [Byte.x10]; Core.capture_timestamp := 100 |}];
         [{| Core.payload := [Byte.x12]; Core.capture_timestamp := 105 |}]]
      = inr (M, ts) /\
      Core.status <$> Core.record_at M "T1" 1 = Some Core.Scheduled /\
      Core.status <$> Core.record_at
        (fst (fst (Core.build Core.revised_wire
           [{| Core.payload := [Byte.x10]; Core.capture_timestamp := 100 |};
            {| Core.payload := [Byte.x12]; Core.capture_timestamp := 105 |}])))
        "T1" 1 = Some Core.Departed).
Proof.
  split; eexists _, _; (split; [vm_compute; reflexivity|]);
    split; vm_compute; reflexivity.
Qed.

(** Across a chunk boundary the timestamps must differ: two chunks that
    share the timestamp 100 are refused by the merger's check. *)
Example merge_refuses_shared_timestamp :
  Core.build_chunked Core.sample_wire
    [[{| Core.payload := [Byte.x00]; Core.capture_timestamp := 100 |}];
     [{| Core.payload := [Byte.x01]; Core.capture_timestamp := 100 |}]]
  = inl OrderingError.
Proof. vm_compute. reflexivity. Qed.


(** ** More on [splitname]: well-formed and separator-free names *)

Section SplitnameFacts.

Import Feeds.

Lemma app_String a s t : String a s +:+ t = String a (s +:+ t).
Proof. reflexivity. Qed.

Lemma app_empty t : "" +:+ t = t.
Proof. reflexivity. Qed.

Lemma str_take_all s : str_take (String.length s) s = s.
Proof. induction s as [|a s IH]; cbn; [done|]. by rewrite IH. Qed.

Lemma str_take_app a b : str_take (String.length a) (a +:+ b) = a.
Proof.
  induction a as [|c a IH]; [by destruct b|].
  rewrite app_String. cbn. by rewrite IH.
Qed.

Lemma str_drop_app a b : str_drop (String.length a) (a +:+ b) = b.
Proof.
  induction a as [|c a IH]; [by destruct b|].
  rewrite app_String. cbn. exact IH.
Qed.

Lemma str_drop_beyond n s : String.length s <= n -> str_drop n s = "".
Proof.
  revert n. induction s as [|a s IH]; intros [|n]; cbn; try done; try lia.
  intros H. apply IH. lia.
Qed.

Lemma length_app_str a b :
  String.length (a +:+ b) = String.length a + String.length b.
Proof.
  induction a as [|c a IH]; [done|]. rewrite app_String. cbn. by rewrite IH.
Qed.

(** [s[n:]] for a non-negative [n]. *)
Lemma str_slice_from (n : nat) s :
  str_slice s (Some (Z.of_nat n)) None = str_drop n s.
Proof.
  unfold str_slice, clamp_index. rewrite str_take_all.
  destruct (Z.ltb_spec (Z.of_nat n) 0) as [?|_]; [lia|].
  rewrite Nat2Z.id.
  destruct (Nat.le_gt_cases n (String.length s)) as [Hle|Hgt].
  - by rewrite Nat.min_l.
  - rewrite Nat.min_r by lia.
    by rewrite !str_drop_beyond by lia.
Qed.

(** [s[:n]] for a non-negative [n] within the string. *)
Lemma str_slice_to (n : nat) s :
  n <= String.length s -> str_slice s None (Some (Z.of_nat n)) = str_take n s.
Proof.
  intros Hle. unfold str_slice, clamp_index.
  destruct (Z.ltb_spec (Z.of_nat n) 0) as [?|_]; [lia|].
  rewrite Nat2Z.id, Nat.min_l by done. by destruct (str_take n s).
Qed.

(** [s[:-1]]. *)
Lemma str_slice_to_minus_1 s :
  str_slice s None (Some (-1)%Z) = str_take (String.length s - 1) s.
Proof.
  unfold str_slice, clamp_index. cbn [Z.ltb Z.compare].
  replace (Z.to_nat (Z.max 0 (Z.of_nat (String.length s) + -1)))
    with (String.length s - 1) by lia.
  by destruct (str_take _ s).
Qed.

Lemma find_absent s c :
  ~ In c (list_ascii_of_string s) -> find s c = (-1)%Z.
Proof.
  induction s as [|a s IH]; cbn; [done|]. intros Hnin.
  destruct (Ascii.eqb_spec a c) as [->|_]; [exfalso; apply Hnin; by left|].
  rewrite IH by (intros ?; apply Hnin; by right). done.
Qed.

Lemma find_nonneg_or_absent s c : (find s c = -1 \/ 0 <= find s c)%Z.
Proof.
  induction s as [|a s IH]; cbn; [by left|].
  destruct (Ascii.eqb a c); [right; lia|].
  destruct (Z.ltb_spec (find s c) 0); [by left|right; lia].
Qed.

Lemma find_first a b c :
  ~ In c (list_ascii_of_string a) ->
  find (a +:+ String c b) c = Z.of_nat (String.length a).
Proof.
  induction a as [|x a IH]; intros Hnin.
  - rewrite app_empty. cbn. by rewrite Ascii.eqb_refl.
  - rewrite app_String. cbn [find String.length].
    destruct (Ascii.eqb_spec x c) as [->|_]; [exfalso; apply Hnin; by left|].
    rewrite IH by (intros ?; apply Hnin; by right).
    destruct (Z.ltb_spec (Z.of_nat (String.length a)) 0); lia.
Qed.

(** X1: a name made of any five-character prefix, a feed identifier free
    of underscores, an underscore and any remainder is split into the name
    itself and that feed identifier. *)
Theorem splitname_well_formed (prefix feed rest : string) :
  String.length prefix = 5 ->
  ~ In "_"%char (list_ascii_of_string feed) ->
  splitname (prefix +:+ feed +:+ String "_" rest)
  = (prefix +:+ feed +:+ String "_" rest, feed).
Proof.
  intros Hlen Hfeed. unfold splitname. f_equal.
  rewrite (str_slice_from 5), <- Hlen, str_drop_app.
  rewrite (find_first feed rest "_" Hfeed).
  rewrite str_slice_to by (rewrite length_app_str; lia).
  apply str_take_app.
Qed.

Lemma splitname_well_formed_witness :
  splitname ("gtfs_" +:+ "bdfm" +:+ String "_" "20190601_042000.gtfs")
  = ("gtfs_bdfm_20190601_042000.gtfs", "bdfm").
Proof.
  apply (splitname_well_formed "gtfs_" "bdfm" "20190601_042000.gtfs").
  - reflexivity.
  - cbn. intros H. repeat (destruct H as [H|H]; [discriminate H|]). exact H.
Defined.

(** X2: when no underscore follows the first five characters, no name is
    rejected: the feed identifier is [name[5:]] without its last character,
    which is the empty string for names of at most six characters. *)
Theorem splitname_without_separator (name : string) :
  ~ In "_"%char (list_ascii_of_string (str_drop 5 name)) ->
  splitname name
  = (name, str_take (String.length (str_drop 5 name) - 1) (str_drop 5 name)) /\
  (String.length name <= 6 -> snd (splitname name) = "").
Proof.
  intros Hnin.
  assert (splitname name
          = (name, str_take (String.length (str_drop 5 name) - 1)
                            (str_drop 5 name))) as E.
  { unfold splitname. f_equal.
    rewrite (str_slice_from 5), (find_absent _ _ Hnin).
    apply str_slice_to_minus_1. }
  split; [exact E|]. intros Hlen. rewrite E. cbn [snd].
  destruct name as [|a1 [|a2 [|a3 [|a4 [|a5 [|a6 [|a7 name]]]]]]];
    cbn in Hlen |- *; try done; lia.
Qed.

Lemma splitname_without_separator_witness :
  splitname "gtfs_si.gtfs" = ("gtfs_si.gtfs", "si.gtf").
Proof.
  refine (proj1 (splitname_without_separator "gtfs_si.gtfs" _)).
  cbn. intros H. repeat (destruct H as [H|H]; [discriminate H|]). exact H.
Defined.

End SplitnameFacts.

(** ** More on the grouping: keys, order and disjointness *)

Section GroupingFacts.

Import Feeds.

Lemma feed_files_filter_map (l : list string) (feed : string) :
  map (fun '(filename, feed_identifier) => data_dir +:+ filename)
      (filter (fun '(filename, feed_identifier) => feed_identifier = feed)
              (map splitname l))
  = map (fun name => data_dir +:+ name)
        (filter (fun name => snd (splitname name) = feed) l).
Proof.
  induction l as [|name l IH]; [done|].
  cbn [map]. rewrite !filter_cons. cbn.
  destruct (decide _); cbn; by rewrite IH.
Qed.

Lemma le_app_prefix (p a b : string) :
  String.le a b -> String.le (p +:+ a) (p +:+ b).
Proof.
  intros H. induction p as [|c p IH]; [done|].
  rewrite !app_String. unfold String.le, String.leb in *. cbn.
  assert (Ascii.compare c c = Eq) as ->; [|done].
  unfold Ascii.compare. apply N.compare_refl.
Qed.

Lemma StronglySorted_filter_list {A} (R : relation A) (P : A -> Prop)
      `{forall x, Decision (P x)} (l : list A) :
  StronglySorted R l -> StronglySorted R (filter P l).
Proof.
  induction 1 as [|x l Hs IH Hall]; [constructor|].
  rewrite filter_cons. destruct (decide (P x)); [|done].
  constructor; [done|]. rewrite Forall_forall in Hall. apply Forall_forall.
  intros y Hy. apply list_elem_of_filter in Hy as [_ Hy]. by apply Hall.
Qed.

Lemma feed_files_sorted_filter (listing : list string) (feed : string) :
  feed_files (messageinfo listing) feed
  = map (fun name => data_dir +:+ name)
        (filter (fun name => snd (splitname name) = feed) (sorted listing)).
Proof.
  unfold feed_files, messageinfo. rewrite feed_files_filter_map.
  apply (Sorted_unique String.le).
  - apply sorted_Sorted.
  - apply StronglySorted_Sorted.
    apply (StronglySorted_fmap _ String.le String.le).
    + intros a b. apply le_app_prefix.
    + apply StronglySorted_filter_list.
      apply Sorted_StronglySorted; [apply _|]. apply sorted_Sorted.
  - apply sorted_Permutation.
Qed.

(** X3: the keys of [feed_message_map] are exactly the feed identifiers
    that [splitname] reads off the listed names, and no key holds an empty
    list; in particular an empty listing gives an empty map. *)
Theorem feed_message_map_keys (listing : list string) :
  (forall feed,
      is_Some (feed_message_map listing !! feed) <->
      feed ∈ map (fun name => snd (splitname name)) listing) /\
  (forall feed files,
      feed_message_map listing !! feed = Some files -> files <> []) /\
  (listing = [] -> feed_message_map listing = ∅).
Proof.
  split; [|split].
  - intros feed. rewrite feed_message_map_lookup.
    destruct (decide _) as [Hin|Hnin]; split; done.
  - intros feed files. rewrite feed_message_map_lookup.
    destruct (decide _) as [Hin|Hnin]; [|done]. intros [= <-] Hnil.
    change (map ?f ?l) with (f <$> l) in Hin.
    apply list_elem_of_fmap in Hin as (name & Hfeed & Hin).
    assert (data_dir +:+ name ∈ feed_files (messageinfo listing) feed) as H.
    { rewrite feed_files_Permutation.
      change (map ?f ?l) with (f <$> l). apply list_elem_of_fmap_2.
      by apply list_elem_of_filter. }
    rewrite Hnil in H. by apply elem_of_nil in H.
  - intros ->. apply map_eq. intros feed.
    rewrite feed_message_map_lookup, lookup_empty.
    destruct (decide _) as [Hin|]; [|done]. by apply elem_of_nil in Hin.
Qed.

Lemma feed_message_map_keys_witness :
  feed_message_map
    ["gtfs_7_20190601_0420.gtfs"; "gtfs_ace_20190601_0400.gtfs"] !! "bdfm"
  = None.
Proof.
  destruct (feed_message_map
    ["gtfs_7_20190601_0420.gtfs"; "gtfs_ace_20190601_0400.gtfs"] !! "bdfm")
    as [files|] eqn:E; [exfalso|reflexivity].
  assert ("bdfm" ∈ map (fun name => snd (splitname name))
            ["gtfs_7_20190601_0420.gtfs"; "gtfs_ace_20190601_0400.gtfs"]) as H.
  { apply (proj1 (feed_message_map_keys _)). rewrite E. by eexists. }
  vm_compute in H.
  repeat (apply elem_of_cons in H as [H|H]; [discriminate H|]).
  by apply elem_of_nil in H.
Defined.

(** X4: the list stored for a feed is the sorted listing, filtered by feed
    identifier and prefixed with the data directory: the second [sorted] of
    line 61 never reorders anything. *)
Theorem feed_message_map_keeps_listing_order (listing : list string)
    (feed : string) (files : list string) :
  feed_message_map listing !! feed = Some files ->
  files = map (fun name => data_dir +:+ name)
              (filter (fun name => snd (splitname name) = feed)
                      (sorted listing)).
Proof.
  rewrite feed_message_map_lookup. destruct (decide _); [|done].
  intros [= <-]. apply feed_files_sorted_filter.
Qed.

Lemma feed_message_map_keeps_listing_order_witness :
  feed_message_map
    ["gtfs_7_20190601_0420.gtfs"; "gtfs_ace_20190601_0400.gtfs";
     "gtfs_7_20190601_0400.gtfs"] !! "7"
  = Some ["./data/20190601/gtfs_7_20190601_0400.gtfs";
          "./data/20190601/gtfs_7_20190601_0420.gtfs"].
Proof.
  destruct (feed_message_map
    ["gtfs_7_20190601_0420.gtfs"; "gtfs_ace_20190601_0400.gtfs";
     "gtfs_7_20190601_0400.gtfs"] !! "7") as [files|] eqn:E.
  - f_equal.
    rewrite (feed_message_map_keeps_listing_order _ _ _ E).
    vm_compute. reflexivity.
  - exfalso. vm_compute in E. discriminate E.
Defined.

(** X5: the grouping is a partition of the listing.  Every listed name
    has its path in the list of its own feed, no path occurs in the lists
    of two different feeds, and when the listing has no repeated name no
    list has a repeated path. *)
Theorem feed_message_map_partition (listing : list string) :
  (forall name,
      name ∈ listing ->
      exists files,
        feed_message_map listing !! snd (splitname name) = Some files /\
        data_dir +:+ name ∈ files) /\
  (forall feed feed' files files' path,
      feed_message_map listing !! feed = Some files ->
      feed_message_map listing !! feed' = Some files' ->
      path ∈ files -> path ∈ files' -> feed = feed') /\
  (NoDup listing ->
   forall feed files,
     feed_message_map listing !! feed = Some files -> NoDup files).
Proof.
  assert (forall feed files path,
    feed_message_map listing !! feed = Some files -> path ∈ files ->
    exists name, path = data_dir +:+ name /\ snd (splitname name) = feed /\
                 name ∈ listing) as Hmem.
  { intros feed files path. rewrite feed_message_map_lookup.
    destruct (decide _); [|done]. intros [= <-].
    rewrite feed_files_Permutation.
    change (map ?f ?l) with (f <$> l).
    intros (name & -> & Hn)%list_elem_of_fmap.
    apply list_elem_of_filter in Hn as [? ?]. by exists name. }
  split; [|split].
  - intros name Hin. exists (feed_files (messageinfo listing) (snd (splitname name))).
    split.
    + rewrite feed_message_map_lookup, decide_True; [done|].
      change (map ?f ?l) with (f <$> l).
      by apply (list_elem_of_fmap_2 (fun name => snd (splitname name))).
    + rewrite feed_files_Permutation.
      change (map ?f ?l) with (f <$> l). apply list_elem_of_fmap_2.
      by apply list_elem_of_filter.
  - intros feed feed' files files' path E E' Hp Hp'.
    destruct (Hmem _ _ _ E Hp) as (name & -> & <- & _).
    destruct (Hmem _ _ _ E' Hp') as (name' & Heq & <- & _).
    by apply (inj (String.app data_dir)) in Heq as ->.
  - intros Hnd feed files. rewrite feed_message_map_lookup.
    destruct (decide _); [|done]. intros [= <-].
    rewrite feed_files_Permutation.
    change (map ?f ?l) with (f <$> l).
    apply NoDup_fmap_2; [apply _|]. by apply NoDup_filter.
Qed.

Lemma feed_message_map_partition_witness :
  exists files,
    feed_message_map
      ["gtfs_7_20190601_0420.gtfs"; "gtfs_ace_20190601_0400.gtfs"]
      !! snd (splitname "gtfs_ace_20190601_0400.gtfs") = Some files /\
    data_dir +:+ "gtfs_ace_20190601_0400.gtfs" ∈ files.
Proof.
  apply (proj1 (feed_message_map_partition
    ["gtfs_7_20190601_0420.gtfs"; "gtfs_ace_20190601_0400.gtfs"])).
  apply list_elem_of_further, list_elem_of_here.
Defined.

End GroupingFacts.

(** ** More on the chunking loop: sizes, and the loop over all feeds *)

Section ChunkSizes.

Import Chunking.

Lemma length_slice {A} (l : list A) (start stop : nat) :
  length (slice l start stop) = Nat.min stop (length l) - start.
Proof. unfold slice. by rewrite length_drop, length_take. Qed.

(** X6: for a feed of n >= 4 files every chunk but the last holds exactly
    n // 4 files, and the last chunk holds more than n // 4 and at most
    2 * (n // 4) files. *)
Theorem chunk_sizes {A} (feedlist : list A) :
  4 <= length feedlist ->
  exists cs,
    chunks feedlist = inr cs /\
    (forall i c, cs !! i = Some c -> S i < length cs ->
                 length c = length feedlist / 4) /\
    (forall c, last cs = Some c ->
               length feedlist / 4 < length c <= 2 * (length feedlist / 4)).
Proof.
  intros Hn. pose proof (chunk_offsets_closed _ Hn) as E. cbn zeta in E.
  set (n := length feedlist) in *. set (q := n / 4) in *.
  set (m := range_len 0 n q) in *.
  assert (0 < q) as Hq by (apply Nat.div_str_pos; lia).
  pose proof (range_len_ge_4 n Hn) as Hm. fold q m in Hm.
  pose proof (range_len_upper n q Hq) as Hup. fold m in Hup.
  destruct (range_len_bounds n q Hq) as [Hlow|]; [|lia]. fold m in Hlow.
  assert ((m - 2) * q + q = (m - 1) * q) as E1 by nia.
  assert ((m - 1) * q + q = m * q) as E2 by nia.
  eexists. split; [apply chunks_closed, E|]. rewrite map_app, map_map.
  cbn [map]. split.
  - intros i c Hi Hlt.
    rewrite length_app, length_map, length_seq in Hlt. cbn [length] in Hlt.
    rewrite lookup_app_l in Hi by (rewrite length_map, length_seq; lia).
    change (map ?f ?l) with (f <$> l) in Hi.
    rewrite list_lookup_fmap, lookup_seq_lt in Hi by lia.
    cbn [fmap option_fmap option_map Nat.add] in Hi. injection Hi as <-.
    rewrite length_slice. fold n.
    assert (S i * q <= (m - 2) * q) by (apply Nat.mul_le_mono_r; lia).
    rewrite Nat.min_l by lia. lia.
  - intros c. rewrite last_snoc. intros [= <-].
    rewrite length_slice. fold n. rewrite Nat.min_id. lia.
Qed.

Lemma chunk_sizes_witness :
  exists cs,
    chunks [10; 11; 12; 13; 14; 15; 16; 17; 18; 19; 20] = inr cs /\
    (forall i c, cs !! i = Some c -> S i < length cs -> length c = 2) /\
    (forall c, last cs = Some c -> 2 < length c <= 4).
Proof.
  apply (chunk_sizes [10; 11; 12; 13; 14; 15; 16; 17; 18; 19; 20]).
  simpl. lia.
Defined.

End ChunkSizes.

Section ChunkAll.

Import Chunking.

Lemma mapM_all_inr {A B} (f : A -> result B) (g : A -> B) (l : list A) :
  (forall x, x ∈ l -> f x = inr (g x)) -> mapM f l = inr (map g l).
Proof.
  induction l as [|x l IH]; intros H; [done|]. cbn.
  rewrite (H x) by apply list_elem_of_here. cbn.
  rewrite IH by (intros y Hy; apply H; by apply list_elem_of_further). done.
Qed.

Lemma mapM_one_error {A B} (f : A -> result B) (e : exn) (l : list A) x :
  x ∈ l -> f x = inl e ->
  (forall y e', y ∈ l -> f y = inl e' -> e' = e) ->
  mapM f l = inl e.
Proof.
  induction l as [|y l IH]; intros Hin Hx Hall.
  - by apply elem_of_nil in Hin.
  - cbn. destruct (f y) as [e'|b] eqn:Ey; cbn.
    + f_equal. by apply (Hall y); [apply list_elem_of_here|].
    + apply elem_of_cons in Hin as [->|Hin]; [congruence|].
      rewrite IH; [done..|].
      intros z e' Hz. apply Hall. by apply list_elem_of_further.
Qed.

Lemma chunks_too_short {A} (feedlist : list A) :
  length feedlist < 4 -> chunks feedlist = inl ValueError.
Proof.
  intros Hlt. unfold chunks, chunk_offsets, n_segments.
  rewrite (Nat.div_small _ 4 Hlt). by rewrite range_zero.
Qed.

Lemma chunks_long_enough {A} (feedlist : list A) :
  4 <= length feedlist ->
  exists cs, chunks feedlist = inr cs /\ concat cs = feedlist.
Proof.
  intros Hn.
  destruct (chunk_offsets_contiguous _ Hn) as (offs & start & E & Hc & _).
  eexists. split; [by apply chunks_closed|].
  rewrite (contiguous_concat feedlist _ _ _ Hc). unfold slice.
  by rewrite drop_0, firstn_all.
Qed.

Lemma chunks_only_ValueError {A} (feedlist : list A) e :
  chunks feedlist = inl e -> e = ValueError.
Proof.
  destruct (le_lt_dec 4 (length feedlist)) as [Hn|Hlt].
  - destruct (chunks_long_enough feedlist Hn) as (cs & E & _). congruence.
  - rewrite (chunks_too_short feedlist Hlt). congruence.
Qed.

Lemma chunk_all_step_errors {A} (kv : string * list A) e :
  (do c <- chunks (snd kv); ret (fst kv, c)) = inl e -> e = ValueError.
Proof.
  destruct kv as [k files]. cbn.
  destruct (chunks files) as [e'|cs] eqn:E; cbn; [|done].
  intros [= <-]. by eapply chunks_only_ValueError.
Qed.

Lemma chunk_all_short {A} (feed_message_map : gmap string (list A)) feed files :
  feed_message_map !! feed = Some files -> length files < 4 ->
  chunk_all feed_message_map = inl ValueError.
Proof.
  intros Hfeed Hlt. unfold chunk_all.
  rewrite (mapM_one_error _ ValueError _ (feed, files)); [done| | |].
  - by apply elem_of_map_to_list.
  - cbn. by rewrite chunks_too_short.
  - intros kv e' _. apply chunk_all_step_errors.
Qed.

Lemma chunk_all_long {A} (feed_message_map : gmap string (list A)) :
  (forall feed files,
      feed_message_map !! feed = Some files -> 4 <= length files) ->
  exists chunked,
    chunk_all feed_message_map = inr chunked /\
    dom chunked = dom feed_message_map /\
    (forall feed, feed_message_map !! feed = None -> chunked !! feed = None) /\
    forall feed files,
      feed_message_map !! feed = Some files ->
      exists cs, chunked !! feed = Some cs /\ chunks files = inr cs /\
                 concat cs = files.
Proof.
  intros Hall.
  set (g := fun files : list A =>
              match chunks files with inr cs => cs | inl _ => [] end).
  assert (forall feed files, feed_message_map !! feed = Some files ->
            chunks files = inr (g files) /\ concat (g files) = files) as Hg.
  { intros feed files Hfeed. unfold g.
    destruct (chunks_long_enough files (Hall _ _ Hfeed)) as (cs & -> & ?).
    done. }
  exists (g <$> feed_message_map). split; [|split; [|split]].
  - unfold chunk_all.
    rewrite (mapM_all_inr _ (prod_map id g)).
    + cbn. f_equal. change (map ?h ?l) with (h <$> l).
      by rewrite list_to_map_fmap, list_to_map_to_list.
    + intros [k files] Hin. apply elem_of_map_to_list in Hin.
      cbn. by rewrite (proj1 (Hg _ _ Hin)).
  - apply dom_fmap_L.
  - intros feed Hfeed. by rewrite lookup_fmap, Hfeed.
  - intros feed files Hfeed. exists (g files).
    rewrite lookup_fmap, Hfeed. destruct (Hg _ _ Hfeed). done.
Qed.

Lemma chunk_all_errors {A} (feed_message_map : gmap string (list A)) e :
  chunk_all feed_message_map = inl e -> e = ValueError.
Proof.
  unfold chunk_all.
  destruct (mapM _ (map_to_list feed_message_map)) as [e'|kvs] eqn:E;
    cbn; [|done].
  intros [= <-]. revert E.
  induction (map_to_list feed_message_map) as [|kv l IH]; cbn; [done|].
  destruct (chunks (snd kv)) as [e''|b] eqn:Ekv; cbn.
  - intros [= <-]. by eapply chunks_only_ValueError.
  - destruct (mapM _ l); cbn; [|done]. intros [= <-]. by apply IH.
Qed.

(** X7: the loop over all feeds.  If some feed has fewer than four files
    the loop raises [ValueError], whichever feed the script is after; it
    raises nothing else.  If every feed has at least four files, every key
    is kept and each feed's list is replaced by chunks whose concatenation
    is that list. *)
Theorem chunk_all_outcome {A} (feed_message_map : gmap string (list A)) :
  (forall feed files,
      feed_message_map !! feed = Some files -> length files < 4 ->
      chunk_all feed_message_map = inl ValueError) /\
  (forall e, chunk_all feed_message_map = inl e -> e = ValueError) /\
  ((forall feed files,
       feed_message_map !! feed = Some files -> 4 <= length files) ->
   exists chunked,
     chunk_all feed_message_map = inr chunked /\
     dom chunked = dom feed_message_map /\
     forall feed files,
       feed_message_map !! feed = Some files ->
       exists cs, chunked !! feed = Some cs /\ chunks files = inr cs /\
                  concat cs = files).
Proof.
  split; [|split].
  - intros feed files. apply chunk_all_short.
  - apply chunk_all_errors.
  - intros Hall.
    destruct (chunk_all_long feed_message_map Hall) as (m & E & Hd & _ & H).
    by exists m.
Qed.

Lemma chunk_all_outcome_witness :
  chunk_all ({[ "7" := [10; 11; 12; 13; 14]; "ace" := [20; 21; 22] ]}
             : gmap string (list nat))
  = inl ValueError.
Proof.
  refine (proj1 (chunk_all_outcome _) "ace" [20; 21; 22] _ _).
  - vm_compute. reflexivity.
  - simpl. lia.
Defined.

End ChunkAll.

(** ** The script up to the export stage *)

Section BeforeExport.

Import Driver.

Context (lib : Libraries) (read : string -> list Byte.byte).

(** X8: what the script does before the export stage, as a function of the
    listing.  A feed with fewer than four files makes it raise
    [ValueError]; otherwise a listing without a file of feed 7 makes it
    raise [KeyError]; otherwise the sorted files of feed 7 are cut into
    chunks, each chunk's messages go through [logify], and the result is
    the cut of the merged logbook with the concatenated parse errors, both
    stored under the key 7 only. *)
Theorem before_export_outcome (listing : list string) :
  (forall feed files,
      Feeds.feed_message_map listing !! feed = Some files ->
      length files < 4 ->
      before_export lib read listing = inl ValueError) /\
  ((forall feed files,
       Feeds.feed_message_map listing !! feed = Some files ->
       4 <= length files) ->
   Feeds.feed_message_map listing !! "7" = None ->
   before_export lib read listing = inl (KeyError "7")) /\
  ((forall feed files,
       Feeds.feed_message_map listing !! feed = Some files ->
       4 <= length files) ->
   forall files,
     Feeds.feed_message_map listing !! "7" = Some files ->
     exists cs,
       Chunking.chunks files = inr cs /\ concat cs = files /\
       before_export lib read listing
       = (do (logbook, _) <-
            merge_logbooks lib
              (map (fun c => fst (logify lib (map read c))) cs);
          ret ({[ "7" := cut_cancellations lib logbook ]},
               {[ "7" := concat (map (fun c => snd (logify lib (map read c)))
                                     cs) ]}))).
Proof.
  split; [|split].
  - intros feed files Hfeed Hlt. unfold before_export.
    by rewrite (chunk_all_short _ _ _ Hfeed Hlt).
  - intros Hall H7. unfold before_export.
    destruct (chunk_all_long _ Hall) as (m & -> & _ & Hnone & _). cbn.
    unfold getitem. by rewrite (Hnone _ H7).
  - intros Hall files H7. unfold before_export.
    destruct (chunk_all_long _ Hall) as (m & -> & _ & _ & Hsome).
    destruct (Hsome _ _ H7) as (cs & Hm & Hcs & Hcat).
    exists cs. split; [done|]. split; [done|]. cbn.
    unfold getitem at 1. rewrite Hm. cbn.
    rewrite parse_feed_unfold.
    destruct (merge_logbooks lib _) as [e|[lb ts]]; cbn; [done|].
    unfold getitem. rewrite lookup_insert_eq. cbn.
    by rewrite insert_insert_eq, !insert_empty.
Qed.

End BeforeExport.

Lemma before_export_outcome_witness :
  Driver.before_export Driver.sample_lib Driver.sample_read
    ["gtfs_ace_20190601_0000.gtfs"; "gtfs_ace_20190601_0600.gtfs";
     "gtfs_ace_20190601_1200.gtfs"; "gtfs_ace_20190601_1800.gtfs"]
  = inl (KeyError "7").
Proof.
  refine (proj1 (proj2 (before_export_outcome Driver.sample_lib
                          Driver.sample_read _)) _ _).
  - intros feed files.
    rewrite feed_message_map_lookup. destruct (decide _) as [Hin|]; [|done].
    intros [= <-]. vm_compute in Hin.
    repeat (apply elem_of_cons in Hin as [->|Hin]; [vm_compute; lia|]).
    by apply elem_of_nil in Hin.
  - vm_compute. reflexivity.
Defined.

(** ** The annotation loop *)

Section AnnotationFacts.

Import Driver.

Context (lib : Libraries).

Lemma get_stop_name_for_stop_id_total (stops : list StopRow) (id : string) :
  exists v,
    get_stop_name_for_stop_id stops id = inr v /\
    (v = None <-> id ∉ map row_stop_id stops).
Proof.
  unfold get_stop_name_for_stop_id, in_index.
  destruct (decide (id ∈ map row_stop_id stops)) as [Hin|Hnin].
  - rewrite bool_decide_eq_true_2 by done.
    pose proof (filter_present_label stops id Hin) as Hne. unfold loc.
    destruct (filter _ stops) as [|r [|r' rs]]; [done|..]; cbn;
      eexists; (split; [done|]); split; done.
  - rewrite bool_decide_eq_false_2 by done. by exists None.
Qed.

(** X10: annotating a trip table never raises, whatever stop ids it
    holds: the assigned [stop_name] column has one entry per [stop_id], and
    the entry is [None] exactly for the ids missing from the index of the
    stops table. *)
Theorem annotate_never_raises (stops : list StopRow) (df : Table lib) :
  exists names,
    annotate lib stops df = inr (assign_stop_name lib df names) /\
    length names = length (stop_id lib df) /\
    Forall2 (fun id v =>
               get_stop_name_for_stop_id stops id = inr v /\
               (v = None <-> id ∉ map row_stop_id stops))
            (stop_id lib df) names.
Proof.
  unfold annotate.
  assert (exists names,
    mapM (get_stop_name_for_stop_id stops) (stop_id lib df) = inr names /\
    Forall2 (fun id v =>
               get_stop_name_for_stop_id stops id = inr v /\
               (v = None <-> id ∉ map row_stop_id stops))
            (stop_id lib df) names) as (names & E & HF).
  { induction (stop_id lib df) as [|id ids (names & E & HF)].
    - exists []. split; [done|constructor].
    - destruct (get_stop_name_for_stop_id_total stops id) as (v & Ev & Hv).
      exists (v :: names). cbn. rewrite Ev, E. cbn.
      split; [done|]. by constructor. }
  exists names. rewrite E. cbn. split; [done|]. split; [|done].
  symmetry. by eapply Forall2_length.
Qed.

End AnnotationFacts.

(** ** File order and capture time *)

Section ChronologyFacts.

Import Feeds.

Example date_time_7 :
  date_time "gtfs_7_20190601_042000.gtfs" = ("20190601", "042000").
Proof. reflexivity. Qed.

Lemma compare_app_prefix (p a b : string) :
  String.compare (p +:+ a) (p +:+ b) = String.compare a b.
Proof.
  induction p as [|c p IH]; [done|]. rewrite !app_String. cbn.
  assert (Ascii.compare c c = Eq) as ->; [|done].
  unfold Ascii.compare. apply N.compare_refl.
Qed.

Lemma compare_app_same_length (a b x y : string) :
  String.length a = String.length b ->
  String.compare (a +:+ x) (b +:+ y)
  = match String.compare a b with
    | Eq => String.compare x y
    | c => c
    end.
Proof.
  revert b. induction a as [|ca a IH]; intros [|cb b] Hlen; try done.
  rewrite !app_String. cbn. injection Hlen as Hlen.
  destruct (Ascii.compare ca cb); [by apply IH|done..].
Qed.

Lemma all_digits_cons c s :
  all_digits (String c s) = true ->
  (48 <= N_of_ascii c <= 57)%N /\ all_digits s = true.
Proof.
  unfold all_digits. cbn [list_ascii_of_string forallb]. intros H.
  apply andb_true_iff in H as [H1 H2]. unfold is_digit in H1.
  apply andb_true_iff in H1 as [?%N.leb_le ?%N.leb_le].
  split; [lia|done].
Qed.

Lemma all_digits_no_underscore s :
  all_digits s = true -> ~ In "_"%char (list_ascii_of_string s).
Proof.
  induction s as [|c s IH]; cbn; [tauto|]. intros H [->|Hin].
  - apply all_digits_cons in H as [H _]. cbn in H. lia.
  - apply all_digits_cons in H as [_ H]. by apply IH.
Qed.

(** On digit strings of equal length the lexicographic order is the order
    of the numbers they write. *)
Lemma compare_decimal (a b : string) (x y : N) :
  String.length a = String.length b ->
  all_digits a = true -> all_digits b = true ->
  (decimal x a ?= decimal y b)%N
  = match (x ?= y)%N with
    | Eq => String.compare a b
    | c => c
    end.
Proof.
  revert b x y. induction a as [|ca a IH]; intros [|cb b] x y Hlen Ha Hb;
    try done.
  - cbn. by destruct (x ?= y)%N.
  - injection Hlen as Hlen.
    apply all_digits_cons in Ha as [Hca Ha].
    apply all_digits_cons in Hb as [Hcb Hb].
    cbn [decimal String.compare]. rewrite (IH b _ _ Hlen Ha Hb).
    unfold Ascii.compare.
    destruct (N.compare_spec x y) as [->|Hlt|Hgt].
    + destruct (N.compare_spec (N_of_ascii ca) (N_of_ascii cb)) as [E|?|?].
      * rewrite E. by rewrite N.compare_refl.
      * assert (10 * y + (N_of_ascii ca - 48) < 10 * y + (N_of_ascii cb - 48))%N
          as ->%N.compare_lt_iff by lia. done.
      * assert (10 * y + (N_of_ascii cb - 48) < 10 * y + (N_of_ascii ca - 48))%N
          as ->%N.compare_gt_iff by lia. done.
    + assert (10 * x + (N_of_ascii ca - 48) < 10 * y + (N_of_ascii cb - 48))%N
        as ->%N.compare_lt_iff by lia. done.
    + assert (10 * y + (N_of_ascii cb - 48) < 10 * x + (N_of_ascii ca - 48))%N
        as ->%N.compare_gt_iff by lia. done.
Qed.

Lemma date_time_archive_name (prefix feed date time ext : string) :
  String.length prefix = 5 ->
  ~ In "_"%char (list_ascii_of_string feed) ->
  all_digits date = true ->
  String.length ext = 5 ->
  date_time (prefix +:+ feed +:+ String "_" (date +:+ String "_" (time +:+ ext)))
  = (date, time).
Proof.
  intros Hp Hfeed Hdate Hext. unfold date_time.
  rewrite (str_slice_from 5), <- Hp, str_drop_app.
  rewrite (find_first feed _ "_" Hfeed).
  replace (Z.of_nat (String.length feed) + 1)%Z
    with (Z.of_nat (String.length (feed +:+ "_"))) by
    (rewrite length_app_str; cbn; lia).
  rewrite str_slice_from.
  replace (feed +:+ String "_" (date +:+ String "_" (time +:+ ext)))
    with ((feed +:+ "_") +:+ (date +:+ String "_" (time +:+ ext))).
  2:{ clear. induction feed as [|c feed IH]; [done|].
      rewrite !app_String. by rewrite IH. }
  rewrite str_drop_app.
  rewrite (find_first date _ "_" (all_digits_no_underscore _ Hdate)).
  f_equal.
  - rewrite str_slice_to by (rewrite length_app_str; lia). apply str_take_app.
  - replace (Z.of_nat (String.length date) + 1)%Z
      with (Z.of_nat (String.length (date +:+ "_"))) by
      (rewrite length_app_str; cbn; lia).
    rewrite str_slice_from.
    replace (date +:+ String "_" (time +:+ ext))
      with ((date +:+ "_") +:+ (time +:+ ext)).
    2:{ clear. induction date as [|c date IH]; [done|].
        rewrite !app_String. by rewrite IH. }
    rewrite str_drop_app.
    unfold str_slice, clamp_index. cbn [Z.ltb Z.compare].
    rewrite length_app_str, Hext.
    replace (Z.to_nat (Z.max 0 (Z.of_nat (String.length time + 5) + -5)))
      with (String.length time) by lia.
    rewrite str_take_app. by destruct time.
Qed.

(** Between two names of the archive's scheme for one feed, the order of
    the names is the order of their capture times. *)
Lemma archive_names_not_later prefix feed wd wt name1 name2 :
  String.length prefix = 5 ->
  ~ In "_"%char (list_ascii_of_string feed) ->
  archive_name prefix feed wd wt name1 ->
  archive_name prefix feed wd wt name2 ->
  String.le name1 name2 -> not_later name1 name2.
Proof.
  intros Hp Hfeed (d1 & t1 & e1 & -> & Hd1 & Ht1 & Hwd1 & Hwt1 & He1)
         (d2 & t2 & e2 & -> & Hd2 & Ht2 & Hwd2 & Hwt2 & He2) Hle.
  unfold not_later. rewrite !date_time_archive_name by done. cbn [fst snd].
  unfold String.le, String.leb in Hle.
  rewrite !compare_app_prefix in Hle. cbn [String.compare] in Hle.
  assert (Ascii.compare "_" "_" = Eq) as E by reflexivity. rewrite E in Hle.
  rewrite (compare_app_same_length d1 d2) in Hle by congruence.
  pose proof (compare_decimal d1 d2 0 0 ltac:(congruence) Hd1 Hd2) as Cd.
  pose proof (compare_decimal t1 t2 0 0 ltac:(congruence) Ht1 Ht2) as Ct.
  cbn [N.compare] in Cd, Ct.
  destruct (String.compare d1 d2) eqn:Ed.
  - right. split; [by apply N.compare_eq_iff|].
    cbn [String.compare] in Hle. rewrite E in Hle.
    rewrite (compare_app_same_length t1 t2) in Hle by congruence.
    destruct (String.compare t1 t2) eqn:Et.
    + apply N.compare_eq_iff in Ct. by apply N.eq_le_incl.
    + apply N.compare_lt_iff in Ct. by apply N.lt_le_incl.
    + done.
  - left. by apply N.compare_lt_iff.
  - done.
Qed.

Lemma StronglySorted_lookup_lt {A} (R : relation A) (l : list A) i j x y :
  StronglySorted R l -> i < j -> l !! i = Some x -> l !! j = Some y -> R x y.
Proof.
  intros Hs. revert i j. induction Hs as [|a l Hs IH Hall]; intros i j Hij Hi Hj.
  - done.
  - destruct j as [|j]; [lia|]. cbn in Hj. destruct i as [|i]; cbn in Hi.
    + injection Hi as <-. rewrite Forall_forall in Hall. apply Hall.
      by eapply list_elem_of_lookup_2.
    + apply (IH i j); [lia|done..].
Qed.

(** C7, as the code has it: for a feed identifier occurring among the
    listed file names, [feed_message_map] holds exactly the paths of the
    files whose names [splitname] maps to that identifier, in ascending
    lexicographic order; when the feed's names follow the archive's scheme
    (fixed prefix, date and time of fixed widths) that order is the order
    of the capture times, so the feed's messages are then presented in
    chronological order. *)
Theorem feed_message_map_groups_in_order (listing : list string) (feed : string) :
  feed ∈ map (fun name => snd (splitname name)) listing ->
  exists files,
    feed_message_map listing !! feed = Some files /\
    files ≡ₚ map (fun name => data_dir +:+ name)
               (filter (fun name => snd (splitname name) = feed) listing) /\
    (forall path,
        path ∈ files <->
        exists name, name ∈ listing /\ snd (splitname name) = feed /\
                     path = data_dir +:+ name) /\
    Sorted String.le files /\
    (forall prefix date_width time_width,
        String.length prefix = 5 ->
        ~ In "_"%char (list_ascii_of_string feed) ->
        (forall name,
            name ∈ listing -> snd (splitname name) = feed ->
            archive_name prefix feed date_width time_width name) ->
        forall i j name1 name2,
          i < j ->
          files !! i = Some (data_dir +:+ name1) ->
          files !! j = Some (data_dir +:+ name2) ->
          not_later name1 name2).
Proof.
  intros Hin. exists (feed_files (messageinfo listing) feed).
  assert (forall path,
    path ∈ feed_files (messageinfo listing) feed <->
    exists name, name ∈ listing /\ snd (splitname name) = feed /\
                 path = data_dir +:+ name) as Hmem.
  { intros path. rewrite (feed_files_Permutation listing feed).
    change (map ?f ?l) with (f <$> l). rewrite list_elem_of_fmap. split.
    + intros (name & -> & Hn). apply list_elem_of_filter in Hn as [? ?]. eauto.
    + intros (name & Hn & Hf & ->). exists name. split; [done|].
      by apply list_elem_of_filter. }
  split; [|split; [|split; [|split]]].
  - rewrite feed_message_map_lookup. by rewrite decide_True.
  - apply feed_files_Permutation.
  - exact Hmem.
  - apply sorted_Sorted.
  - intros prefix wd wt Hp Hfeed Hnames i j name1 name2 Hij Hi Hj.
    assert (forall k name,
      feed_files (messageinfo listing) feed !! k = Some (data_dir +:+ name) ->
      archive_name prefix feed wd wt name) as Hname.
    { intros k name Hk. apply list_elem_of_lookup_2, Hmem in Hk
        as (name' & Hin' & Hf & Heq).
      apply (inj (String.app data_dir)) in Heq as ->. by apply Hnames. }
    apply (archive_names_not_later prefix feed wd wt);
      [done|done|by eapply Hname|by eapply Hname|].
    assert (String.le (data_dir +:+ name1) (data_dir +:+ name2)) as Hle.
    { apply (StronglySorted_lookup_lt String.le
               (feed_files (messageinfo listing) feed) i j); [|done..].
      apply Sorted_StronglySorted; [apply _|]. apply sorted_Sorted. }
    unfold String.le, String.leb in *. by rewrite compare_app_prefix in Hle.
Qed.

Lemma feed_message_map_groups_in_order_witness :
  exists files,
    feed_message_map
      ["gtfs_7_20190601_0420.gtfs"; "gtfs_ace_20190601_0400.gtfs";
       "gtfs_7_20190601_0400.gtfs"] !! "7" = Some files /\
    Sorted String.le files /\
    not_later "gtfs_7_20190601_0400.gtfs" "gtfs_7_20190601_0420.gtfs".
Proof.
  destruct (feed_message_map_groups_in_order
    ["gtfs_7_20190601_0420.gtfs"; "gtfs_ace_20190601_0400.gtfs";
     "gtfs_7_20190601_0400.gtfs"] "7") as (files & E & P & _ & S & H).
  - vm_compute. apply list_elem_of_here.
  - exists files. split; [exact E|]. split; [exact S|].
    assert (files = ["./data/20190601/gtfs_7_20190601_0400.gtfs";
                     "./data/20190601/gtfs_7_20190601_0420.gtfs"]) as Hfiles.
    { vm_compute in E. injection E as <-. reflexivity. }
    apply (H "gtfs_" 8 4 eq_refl) with (i := 0) (j := 1).
    + vm_compute. intros Hu.
      repeat (destruct Hu as [Hu|Hu]; [discriminate Hu|]). exact Hu.
    + intros name Hname Hfeed.
      apply elem_of_cons in Hname as [->|Hname].
      { exists "20190601", "0420", ".gtfs". repeat split; reflexivity. }
      apply elem_of_cons in Hname as [->|Hname].
      { vm_compute in Hfeed. discriminate Hfeed. }
      apply elem_of_cons in Hname as [->|Hname].
      { exists "20190601", "0400", ".gtfs". repeat split; reflexivity. }
      exfalso. revert Hname. apply not_elem_of_nil.
    + lia.
    + rewrite Hfiles. reflexivity.
    + rewrite Hfiles. reflexivity.
Defined.

(** C7 as stated fails: the order is that of the names, not of the capture
    times.  Of two snapshots of feed 7 taken on 2019-06-01 at times written
    [9] and [10], the later one is presented first, because ["10"] sorts
    before ["9"]. *)
Lemma lexicographic_not_chronological :
  feed_message_map ["gtfs_7_20190601_9.gtfs"; "gtfs_7_20190601_10.gtfs"] !! "7"
  = Some ["./data/20190601/gtfs_7_20190601_10.gtfs";
          "./data/20190601/gtfs_7_20190601_9.gtfs"] /\
  date_time "gtfs_7_20190601_10.gtfs" = ("20190601", "10") /\
  date_time "gtfs_7_20190601_9.gtfs" = ("20190601", "9") /\
  ~ not_later "gtfs_7_20190601_10.gtfs" "gtfs_7_20190601_9.gtfs".
Proof.
  split; [vm_compute; reflexivity|]. split; [reflexivity|].
  split; [reflexivity|].
  unfold not_later. intros [H|[_ H]]; vm_compute in H;
    [discriminate H|by apply H].
Qed.

End ChronologyFacts.
